(** * pkg/machine/qemu.go: the QEMU machine backend

    A shallow embedding of [pkg/machine/qemu.go]: the synthesis of the
    hypervisor command line ([genDrives] and the option block of [Create]),
    the resolution of the hypervisor binary ([findQEMUBinary]), disk
    provisioning ([CreateDisk], [driveSizes]), the two monitor commands
    ([Screenshot], [DetachCD]) and the teardown operations ([Stop],
    [Clean]).

    Go strings are byte strings: they are [string] of the Standard Library,
    whose characters are the 256 values of [ascii].  Everything the file
    does to the outside world (the filesystem, the process manager, the
    monitor socket) goes through an explicit host interface and is recorded
    in a trace of events, so that what an operation did can be read off the
    final store. *)

From Stdlib Require Import String Ascii List ZArith Lia Bool Arith.
From Stdlib Require Import DecimalString DecimalNat DecimalZ.
Import ListNotations.

Open Scope string_scope.
Open Scope list_scope.

Set Implicit Arguments.

(** String concatenation is written [+++], list concatenation [++]. *)
Infix "+++" := String.append (right associativity, at level 60) : string_scope.

(* ------------------------------------------------------------------ *)
(** ** Strings and formatting *)

Module Fmt.

(** [%d] of a non-negative [int]. *)
Definition itoa (n : nat) : string :=
  NilZero.string_of_uint (Nat.to_uint n).

(** [%d] of an [int] that may be negative (a byte count reported by a
    writer). *)
Definition ztoa (z : Z) : string :=
  NilZero.string_of_int (Z.to_int z).

(** Reading back a decimal numeral. *)
Definition atoi (s : string) : option nat :=
  option_map Nat.of_uint (NilZero.uint_of_string s).

(** [strings.Join]. *)
Fixpoint join (sep : string) (l : list string) : string :=
  match l with
  | [] => ""
  | [x] => x
  | x :: rest => x +++ sep +++ join sep rest
  end.

(** [strings.Split s sep] for a separator of one byte: the fields between
    the occurrences of the separator; a string without separator is its
    only field. *)
Fixpoint split (c : ascii) (s : string) : list string :=
  match s with
  | EmptyString => [EmptyString]
  | String a s' =>
      if Ascii.eqb a c then EmptyString :: split c s'
      else match split c s' with
           | [] => [String a EmptyString]
           | h :: t => String a h :: t
           end
  end.

(** [strings.TrimPrefix], as a partial function: the rest of [s] after
    [p] when [s] starts with [p]. *)
Fixpoint stripPrefix (p s : string) : option string :=
  match p with
  | EmptyString => Some s
  | String a p' =>
      match s with
      | EmptyString => None
      | String b s' => if Ascii.eqb a b then stripPrefix p' s' else None
      end
  end.

(** [strings.Contains]. *)
Fixpoint contains (s sub : string) : bool :=
  match stripPrefix sub s with
  | Some _ => true
  | None =>
      match s with
      | EmptyString => false
      | String _ s' => contains s' sub
      end
  end.

(** The byte [c] does not occur in [s]. *)
Fixpoint lacks (c : ascii) (s : string) : bool :=
  match s with
  | EmptyString => true
  | String a s' => negb (Ascii.eqb a c) && lacks c s'
  end.

End Fmt.

(* ------------------------------------------------------------------ *)
(** ** Lexical paths: Go's [path.Join] and [path.Clean]

    [qemu.go] builds every path with [path.Join] or [filepath.Join].  Both
    belong to Go's standard library; they are modelled after its
    documentation: [Join] joins the non-empty elements with a slash and
    cleans the result; [Clean] replaces runs of slashes by one slash, drops
    every [.] element, drops every inner [..] together with the element
    before it, drops the [..] elements that begin a rooted path, and
    returns [.] for an empty result. *)

Module GoPath.

Definition isDot (e : string) : bool := String.eqb e ".".
Definition isDotDot (e : string) : bool := String.eqb e "..".
Definition isEmpty (e : string) : bool := String.eqb e "".

(** One pass over the elements of a path; [out] is the stack of the
    elements kept so far, the last one first. *)
Fixpoint cleanElems (rooted : bool) (out : list string) (elems : list string)
  : list string :=
  match elems with
  | [] => List.rev out
  | e :: es =>
      if isEmpty e || isDot e then cleanElems rooted out es
      else if isDotDot e then
        match out with
        | top :: out' =>
            if isDotDot top then cleanElems rooted (e :: out) es
            else cleanElems rooted out' es
        | [] =>
            if rooted then cleanElems rooted out es
            else cleanElems rooted [e] es
        end
      else cleanElems rooted (e :: out) es
  end.

Definition isRooted (p : string) : bool :=
  match p with
  | String a _ => Ascii.eqb a "/"
  | EmptyString => false
  end.

Definition Clean (p : string) : string :=
  match p with
  | EmptyString => "."
  | _ =>
      let rooted := isRooted p in
      let elems := cleanElems rooted [] (Fmt.split "/" p) in
      if rooted then "/" +++ Fmt.join "/" elems
      else match elems with
           | [] => "."
           | _ => Fmt.join "/" elems
           end
  end.

Definition Join (elem : list string) : string :=
  match filter (fun e => negb (isEmpty e)) elem with
  | [] => ""
  | es => Clean (Fmt.join "/" es)
  end.

(** Lexical containment: [x] is [p] or lies below it. *)
Definition under (p x : string) : bool :=
  String.eqb x p ||
  match Fmt.stripPrefix (p +++ "/") x with Some _ => true | None => false end.

(** A plain element of a path: not empty, not [.], not [..], without
    slash. *)
Definition plainElem (e : string) : bool :=
  negb (isEmpty e) && negb (isDot e) && negb (isDotDot e) && Fmt.lacks "/" e.

(** The path with the elements [elems], rooted or not. *)
Definition plainPath (rooted : bool) (elems : list string) : string :=
  (if rooted then "/" else "") +++ Fmt.join "/" elems.

End GoPath.

(** [path.Join]. *)
Definition path_Join : list string -> string := GoPath.Join.

(** [filepath.Join]; on the Unix hosts the monitor socket needs, it is
    [path.Join] with the same separator. *)
Definition filepath_Join : list string -> string := GoPath.Join.

(* ------------------------------------------------------------------ *)
(** ** Data model *)

(** Go [error] values.  [Wrapf prefix cause] is [fmt.Errorf] with a format
    that ends in [%w]: every wrapping format of [qemu.go] has this shape. *)
Inductive error : Type :=
| HostError (msg : string)
| Errorf (msg : string)
| Wrapf (prefix : string) (cause : error).

(** The [Error()] method. *)
Fixpoint errorString (e : error) : string :=
  match e with
  | HostError msg => msg
  | Errorf msg => msg
  | Wrapf prefix cause => prefix +++ errorString cause
  end.

(** [types.SSH]: only the forwarded port is read here. *)
Record SSH : Type := mkSSH { Port : string }.

(** The failure callback of a configuration, an opaque function value. *)
Inductive Hook : Type := mkHook (label : string).

(** [types.MachineConfig], with the fields [qemu.go] reads. *)
Record MachineConfig : Type := mkMachineConfig {
  ID : string;
  Memory : string;
  CPU : string;
  CPUType : string;
  Arch : string;
  Drives : list string;
  DriveSizes : list string;
  AutoDriveSetup : bool;
  ISO : string;
  DataSource : string;
  DisableDefaultNetworking : bool;
  SSHConfig : SSH;
  Display : string;
  Args : list string;
  StateDir : string;
  Process : string;
  OnFailure : option Hook
}.

(** [process.Process] of the process manager: what [process.New] collects
    from its options. *)
Record ProcessHandle : Type := mkProcess {
  procName : string;
  procArgs : list string;
  procStateDir : string
}.

Definition ProcessOption : Type := ProcessHandle -> ProcessHandle.

Definition WithName (n : string) : ProcessOption :=
  fun c => mkProcess n (procArgs c) (procStateDir c).
(** [process.WithArgs] appends to the arguments collected so far; the log
    line of [Create] prints them in the same order, [opts] first. *)
Definition WithArgs (a : list string) : ProcessOption :=
  fun c => mkProcess (procName c) (procArgs c ++ a) (procStateDir c).
Definition WithStateDir (d : string) : ProcessOption :=
  fun c => mkProcess (procName c) (procArgs c) d.

Definition process_New (opts : list ProcessOption) : ProcessHandle :=
  fold_left (fun c o => o c) opts (mkProcess "" [] "").

(** [type QEMU struct]. *)
Record QEMU : Type := mkQEMU {
  machineConfig : MachineConfig;
  process : option ProcessHandle
}.

(** [context.Context], [net.Conn] and [*os.File] values. *)
Inductive Ctx : Type := mkCtx (id : nat).
Inductive Conn : Type := mkConn (fd : nat).
Record File : Type := mkFile { Name : string }.

(** [os.ModePerm] and [time.Second] (in nanoseconds). *)
Definition os_ModePerm : N := 511.
Definition time_Second : Z := 1000000000.

(** Carriage return, line feed. *)
Definition CRLF : string :=
  String (ascii_of_nat 13) (String (ascii_of_nat 10) EmptyString).

(** What the code asks of the outside world, each request with the answer
    it received. *)
Inductive Event : Type :=
| EvStat (name : string) (err : option error)
| EvLookPath (file : string) (r : string + error)
| EvMkdirAll (path : string) (perm : N) (err : option error)
| EvSH (command : string) (r : string * option error)
| EvMonitor (ctx : Ctx) (p : ProcessHandle) (onFailure : option Hook)
            (newCtx : Ctx)
| EvRun (p : ProcessHandle) (err : option error)
| EvStop (p : ProcessHandle) (err : option error)
| EvIsAlive (p : ProcessHandle) (alive : bool)
| EvDial (network address : string) (r : Conn + error)
| EvCreateTemp (dir pattern : string) (r : File + error)
| EvFileClose (f : File) (err : option error)
| EvRemove (name : string) (err : option error)
| EvWrite (c : Conn) (data : string) (r : Z * option error)
| EvSetReadDeadline (c : Conn) (afterNow : Z) (err : option error)
| EvRead (c : Conn) (size : nat) (r : Z * option error)
| EvConnClose (c : Conn) (err : option error)
| EvRemoveAll (path : string) (err : option error).

(** The collaborators of [qemu.go]: the operating system, the process
    manager, the shell helper [utils.SH] and the package's own [monitor].
    Each is a transition of an abstract world. *)
Record Host : Type := mkHost {
  World : Type;
  os_Stat : string -> World -> option error * World;
  exec_LookPath : string -> World -> (string + error) * World;
  os_MkdirAll : string -> N -> World -> option error * World;
  utils_SH : string -> World -> (string * option error) * World;
  pkg_monitor : Ctx -> ProcessHandle -> option Hook -> World -> Ctx * World;
  process_Run : ProcessHandle -> World -> option error * World;
  process_Stop : ProcessHandle -> World -> option error * World;
  process_IsAlive : ProcessHandle -> World -> bool * World;
  net_Dial : string -> string -> World -> (Conn + error) * World;
  os_CreateTemp : string -> string -> World -> (File + error) * World;
  file_Close : File -> World -> option error * World;
  os_Remove : string -> World -> option error * World;
  conn_Write : Conn -> string -> World -> (Z * option error) * World;
  conn_SetReadDeadline : Conn -> Z -> World -> option error * World;
  conn_Read : Conn -> nat -> World -> (Z * option error) * World;
  conn_Close : Conn -> World -> option error * World;
  os_RemoveAll : string -> World -> option error * World
}.

(* ------------------------------------------------------------------ *)
(** ** The argument synthesizer (pure part of [Create]) *)

(** The three variables the closure [genDrives] updates. *)
Record GenState : Type := mkGen {
  allDrives : list string;
  scsiAdded : bool;
  nextId : nat
}.

Definition scsiController : string := "virtio-scsi-pci,id=scsi0".

(** The loop over the user disks: [i] is the range index, [nextId] the
    counter [id]. *)
Fixpoint userDisks (i : nat) (ds : list string) (st : GenState) : GenState :=
  match ds with
  | [] => st
  | d :: rest =>
      let driveID := "drv" +++ Fmt.itoa (nextId st) in
      userDisks (S i) rest
        (mkGen (allDrives st ++
                  ["-drive"; "if=none,id=" +++ driveID +++ ",file=" +++ d;
                   "-device";
                   "virtio-blk-pci,drive=" +++ driveID +++ ",bootindex="
                     +++ Fmt.itoa (i + 1)])
               (scsiAdded st) (S (nextId st)))
  end.

Definition addSCSIIfNeeded (st : GenState) : GenState :=
  if negb (scsiAdded st)
  then mkGen (allDrives st ++ ["-device"; scsiController]) true (nextId st)
  else st.

(** One removable medium behind the controller, with its fixed
    [bootindex]. *)
Definition cdrom (file bootindex : string) (st : GenState) : GenState :=
  let st := addSCSIIfNeeded st in
  let driveID := "drv" +++ Fmt.itoa (nextId st) in
  mkGen (allDrives st ++
           ["-drive"; "if=none,id=" +++ driveID +++ ",media=cdrom,file=" +++ file;
            "-device";
            "scsi-cd,drive=" +++ driveID +++ ",bus=scsi0.0,bootindex="
              +++ bootindex])
        (scsiAdded st) (S (nextId st)).

(** The closure [genDrives]; [userDrives] is the variable of [Create] it
    captures. *)
Definition genDrives (userDrives : list string) (m : MachineConfig)
  : list string :=
  let st := userDisks 0 userDrives (mkGen [] false 0) in
  let st := if negb (String.eqb (ISO m) "") then cdrom (ISO m) "50" st
            else st in
  let st := if negb (String.eqb (DataSource m) "")
            then cdrom (DataSource m) "60" st else st in
  allDrives st.

Definition monitorSockFile (q : QEMU) : string :=
  path_Join [StateDir (machineConfig q); "qemu-monitor.sock"].

(** The slice [opts] of [Create], as it stands when the process is
    built. *)
Definition createOpts (q : QEMU) : list string :=
  let m := machineConfig q in
  let display :=
    if negb (String.eqb (Display m) "") then Display m else "-nographic" in
  let opts :=
    ["-m"; Memory m;
     "-smp"; "cores=" +++ CPU m;
     "-rtc"; "base=utc,clock=rt";
     "-monitor"; "unix:" +++ monitorSockFile q +++ ",server,nowait";
     "-device"; "virtio-serial"] in
  let opts :=
    if negb (DisableDefaultNetworking m)
    then opts ++ ["-nic"; "user,hostfwd=tcp::" +++ Port (SSHConfig m) +++ "-:22"]
    else opts in
  let opts := opts ++ Fmt.split " " display in
  let opts :=
    if negb (String.eqb (CPUType m) "") then opts ++ ["-cpu"; CPUType m]
    else if String.eqb (Arch m) "aarch64" then opts ++ ["-cpu"; "max"]
    else opts in
  let opts := opts ++ Args m in
  let opts :=
    if String.eqb (Arch m) "aarch64"
    then opts ++ ["-machine"; "virt,accel=tcg,acpi=on,gic-version=2"]
    else opts in
  opts ++ ["-boot"; "order=dc,menu=on"].

(** The common installation paths of [findQEMUBinary], in its order. *)
Definition commonPaths : list string :=
  ["/home/linuxbrew/.linuxbrew/bin/";
   "/usr/local/bin/";
   "/usr/bin/";
   "/opt/homebrew/bin/";
   "/usr/local/homebrew/bin/"].

(** The process [Create] builds with [process.New]. *)
Definition launchHandle (q : QEMU) (processName : string)
    (userDrives : list string) : ProcessHandle :=
  let m := machineConfig q in
  process_New [WithName processName;
               WithArgs (createOpts q);
               WithArgs (genDrives userDrives m);
               WithStateDir (StateDir m)].

(** The kinds of events. *)
Definition isLaunch (e : Event) : bool :=
  match e with
  | EvRun _ _ | EvMonitor _ _ _ _ => true
  | _ => false
  end.

Definition isDisk (e : Event) : bool :=
  match e with
  | EvMkdirAll _ _ _ | EvSH _ _ => true
  | _ => false
  end.

Definition isSearch (e : Event) : bool :=
  match e with
  | EvStat _ _ | EvLookPath _ _ => true
  | _ => false
  end.

Definition isRead (e : Event) : bool :=
  match e with
  | EvRead _ _ _ => true
  | _ => false
  end.

(* ------------------------------------------------------------------ *)
(** ** Effects: a store, and the events emitted on the way *)

Section Machine.

Variable H : Host.

(** [types.DefaultDriveSize], declared in the package [types]. *)
Variable DefaultDriveSize : string.

(** The receiver [q] and the world it runs in. *)
Record Store : Type := mkStore {
  self : QEMU;
  world : World H
}.

(** The outcome of running an operation: its result, the events it
    emitted in order, and the store it leaves. *)
Record Outcome (A : Type) : Type := mkOutcome {
  value : A;
  events : list Event;
  final : Store
}.

Definition M (A : Type) : Type := Store -> Outcome A.

Definition ret {A : Type} (a : A) : M A :=
  fun st => mkOutcome a [] st.

Definition bind {A B : Type} (m : M A) (f : A -> M B) : M B :=
  fun st =>
    let r1 := m st in
    let r2 := f (value r1) (final r1) in
    mkOutcome (value r2) (events r1 ++ events r2) (final r2).

Notation "x <- m ;; k" := (bind m (fun x => k))
  (at level 61, m at next level, right associativity).
Notation "m ;;; k" := (bind m (fun _ => k))
  (at level 61, right associativity).

Definition getSelf : M QEMU :=
  fun st => mkOutcome (self st) [] st.

Definition putSelf (q : QEMU) : M unit :=
  fun st => mkOutcome tt [] (mkStore q (world st)).

(** A call of a collaborator: the world steps, and the request is
    emitted with its answer. *)
Definition call {A : Type} (ev : A -> Event) (op : World H -> A * World H)
  : M A :=
  fun st =>
    let r := op (world st) in
    mkOutcome (fst r) [ev (fst r)] (mkStore (self st) (snd r)).

(* ------------------------------------------------------------------ *)
(** ** [findQEMUBinary] *)

(** The loop over [commonPaths]. *)
Fixpoint searchCommon (qemuBinary : string) (paths : list string)
  : M (option string) :=
  match paths with
  | [] => ret None
  | p :: rest =>
      let candidate := filepath_Join [p; qemuBinary] in
      err <- call (EvStat candidate) (os_Stat H candidate) ;;
      match err with
      | None => ret (Some candidate)
      | Some _ => searchCommon qemuBinary rest
      end
  end.

Definition findQEMUBinary (arch : string) : M (string + error) :=
  let qemuBinary := "qemu-system-" +++ arch in
  found <- searchCommon qemuBinary commonPaths ;;
  match found with
  | Some p => ret (inl p)
  | None =>
      r <- call (EvLookPath qemuBinary) (exec_LookPath H qemuBinary) ;;
      match r with
      | inr err =>
          ret (inr (Wrapf (qemuBinary +++ " not found in common paths or PATH: ")
                          err))
      | inl p => ret (inl p)
      end
  end.

(* ------------------------------------------------------------------ *)
(** ** Disk provisioning *)

Definition driveSizes (m : MachineConfig) : list string :=
  let sizes := map (fun s => s +++ "M") (DriveSizes m) in
  match sizes with
  | [] => [DefaultDriveSize +++ "M"]
  | _ => sizes
  end.

Definition CreateDisk (diskname size : string) : M (option error) :=
  q <- getSelf ;;
  let dir := StateDir (machineConfig q) in
  err <- call (EvMkdirAll dir os_ModePerm) (os_MkdirAll H dir os_ModePerm) ;;
  match err with
  | Some e => ret (Some e)
  | None =>
      let command :=
        "qemu-img create -f qcow2 " +++ filepath_Join [dir; diskname]
          +++ " " +++ size in
      r <- call (EvSH command) (utils_SH H command) ;;
      match snd r with
      | Some e => ret (Some (Wrapf (fst r +++ " : ") e))
      | None => ret None
      end
  end.

(** The loop of [Create] over [driveSizes]: [i] is the range index. *)
Fixpoint provision (i : nat) (sizes : list string) (userDrives : list string)
  : M (list string + error) :=
  match sizes with
  | [] => ret (inl userDrives)
  | s :: rest =>
      q <- getSelf ;;
      let m := machineConfig q in
      let filename := ID m +++ "-" +++ Fmt.itoa i +++ ".img" in
      err <- CreateDisk filename s ;;
      match err with
      | Some e => ret (inr (Wrapf ("creating disk with size " +++ s +++ ": ") e))
      | None =>
          provision (S i) rest
            (userDrives ++ [filepath_Join [StateDir m; filename]])
      end
  end.

(* ------------------------------------------------------------------ *)
(** ** [Create] *)

(** The first block of [Create]: the drives the machine runs on, the
    configured ones or, with automatic setup and none configured, one new
    image per size. *)
Definition provisionDrives : M (list string + error) :=
  q <- getSelf ;;
  let m := machineConfig q in
  let sizes := driveSizes m in
  let userDrives := Drives m in
  if AutoDriveSetup m && Nat.eqb (length userDrives) 0
  then provision 0 sizes userDrives
  else ret (inl userDrives).

(** The block that chooses [processName]. *)
Definition resolveProcess : M (string + error) :=
  q <- getSelf ;;
  let m := machineConfig q in
  if negb (String.eqb (Process m) "")
  then ret (inl (Process m))
  else
    found <- findQEMUBinary (Arch m) ;;
    match found with
    | inr err => ret (inr (Wrapf "failed to find QEMU binary: " err))
    | inl p => ret (inl p)
    end.

(** [Create].  Its calls of the logger are left out: they reach none of
    the collaborators and change no result. *)
Definition Create (ctx : Ctx) : M (Ctx * option error) :=
  q <- getSelf ;;
  let m := machineConfig q in
  r <- provisionDrives ;;
  match r with
  | inr err => ret (ctx, Some err)
  | inl userDrives =>
      r <- resolveProcess ;;
      match r with
      | inr err => ret (ctx, Some err)
      | inl processName =>
          let qemu := launchHandle q processName userDrives in
          putSelf (mkQEMU m (Some qemu)) ;;;
          newCtx <- call (EvMonitor ctx qemu (OnFailure m))
                         (pkg_monitor H ctx qemu (OnFailure m)) ;;
          err <- call (EvRun qemu) (process_Run H qemu) ;;
          ret (newCtx, err)
      end
  end.

Definition Config : M MachineConfig :=
  q <- getSelf ;;
  ret (machineConfig q).

(* ------------------------------------------------------------------ *)
(** ** The monitor commands *)

(** The drain loop [for { ... conn.Read(b) ... }]: it ends at the first
    read that returns an error.  The loop has no bound of its own; [fuel]
    bounds the number of reads, and [false] says the bound was reached
    with the loop still running. *)
Fixpoint drain (fuel : nat) (conn : Conn) : M bool :=
  match fuel with
  | O => ret false
  | S fuel' =>
      r <- call (EvRead conn 1024) (conn_Read H conn 1024) ;;
      match snd r with
      | Some _ => ret true
      | None => drain fuel' conn
      end
  end.

Definition shortWrite (n : Z) (len : nat) : error :=
  Errorf ("didn't send the full command (" +++ Fmt.ztoa n +++ " out of "
            +++ Fmt.itoa len +++ " bytes)").

(** Both commands open the monitor socket first. *)
Definition dialMonitor : M (Conn + error) :=
  q <- getSelf ;;
  call (EvDial "unix" (monitorSockFile q))
       (net_Dial H "unix" (monitorSockFile q)).

(** Both commands then write their line in one call, check the count and
    set the read deadline, one second from now. *)
Definition sendLine (conn : Conn) (cmd : string) : M (option error) :=
  w <- call (EvWrite conn cmd) (conn_Write H conn cmd) ;;
  match snd w with
  | Some err => ret (Some err)
  | None =>
      if negb (Z.eqb (fst w) (Z.of_nat (String.length cmd)))
      then ret (Some (shortWrite (fst w) (String.length cmd)))
      else call (EvSetReadDeadline conn time_Second)
                (conn_SetReadDeadline H conn time_Second)
  end.

(** The line, then the drain loop.  The result is [None] when the drain
    loop did not end within [fuel] reads. *)
Definition sendAndDrain (fuel : nat) (conn : Conn) (cmd : string)
  : M (option (option error)) :=
  err <- sendLine conn cmd ;;
  match err with
  | Some e => ret (Some (Some e))
  | None =>
      done <- drain fuel conn ;;
      if done then ret (Some None) else ret None
  end.

(** The name of a temporary file that is created, closed and removed at
    once. *)
Definition screenshotFile : M (File + error) :=
  t <- call (EvCreateTemp "" "qemu-screenshot-*.png")
            (os_CreateTemp H "" "qemu-screenshot-*.png") ;;
  match t with
  | inr err => ret (inr err)
  | inl f =>
      call (EvFileClose f) (file_Close H f) ;;;
      call (EvRemove (Name f)) (os_Remove H (Name f)) ;;;
      ret (inl f)
  end.

Definition screendumpLine (f : File) : string :=
  "screendump " +++ Name f +++ CRLF.

Definition Screenshot (fuel : nat) : M (option (string * option error)) :=
  d <- dialMonitor ;;
  match d with
  | inr err => ret (Some ("", Some err))
  | inl conn =>
      r <- (t <- screenshotFile ;;
            match t with
            | inr err => ret (Some ("", Some err))
            | inl f =>
                s <- sendAndDrain fuel conn (screendumpLine f) ;;
                match s with
                | None => ret None
                | Some (Some err) => ret (Some ("", Some err))
                | Some None => ret (Some (Name f, None))
                end
            end) ;;
      (* defer conn.Close() *)
      call (EvConnClose conn) (conn_Close H conn) ;;;
      ret r
  end.

Definition ejectLine : string := "eject -f ide0-cd0" +++ CRLF.

Definition DetachCD (fuel : nat) : M (option (option error)) :=
  d <- dialMonitor ;;
  match d with
  | inr err => ret (Some (Some err))
  | inl conn =>
      r <- sendAndDrain fuel conn ejectLine ;;
      (* defer conn.Close() *)
      call (EvConnClose conn) (conn_Close H conn) ;;;
      ret r
  end.

(** The connection answers [k] reads without error and the next one with
    an error. *)
Fixpoint readsUntilError (k : nat) (conn : Conn) (w : World H) : Prop :=
  let r := conn_Read H conn 1024 w in
  match k with
  | O => snd (fst r) <> None
  | S k' => snd (fst r) = None /\ readsUntilError k' conn (snd r)
  end.

(* ------------------------------------------------------------------ *)
(** ** Teardown *)

Definition Stop : M (option error) :=
  q <- getSelf ;;
  let p := process_New [WithStateDir (StateDir (machineConfig q))] in
  call (EvStop p) (process_Stop H p).

Definition Clean : M (option error) :=
  q <- getSelf ;;
  if negb (String.eqb (StateDir (machineConfig q)) "")
  then call (EvRemoveAll (StateDir (machineConfig q)))
            (os_RemoveAll H (StateDir (machineConfig q)))
  else ret None.

Definition Alive : M bool :=
  q <- getSelf ;;
  let p := process_New [WithStateDir (StateDir (machineConfig q))] in
  call (EvIsAlive p) (process_IsAlive H p).

(** [m] keeps the receiver and emits events of kind [P] only. *)
Definition quiet {A : Type} (P : Event -> bool) (m : M A) : Prop :=
  forall st, self (final (m st)) = self st /\
             forallb P (events (m st)) = true.

End Machine.

Arguments ret {H A} a.
Arguments bind {H A B} m f.
Arguments value {H A} o.
Arguments events {H A} o.
Arguments final {H A} o.

(* ------------------------------------------------------------------ *)
(** ** Reading the synthesized tokens

    The hypervisor reads a device token as comma-separated fields, the
    properties as [key=value].  [bootindexOf] is the boot priority a token
    declares. *)

Module QemuOpt.

Fixpoint lookupField (prefix : string) (fields : list string) : option string :=
  match fields with
  | [] => None
  | f :: rest =>
      match Fmt.stripPrefix prefix f with
      | Some v => Some v
      | None => lookupField prefix rest
      end
  end.

Definition fieldValue (key tok : string) : option string :=
  lookupField (key +++ "=") (Fmt.split "," tok).

Definition bootindexOf (tok : string) : option nat :=
  match fieldValue "bootindex" tok with
  | Some v => Fmt.atoi v
  | None => None
  end.

End QemuOpt.

(** The two tokens of the [k]-th user disk, as [genDrives] formats them. *)
Definition driveToken (k : nat) (file : string) : string :=
  "if=none,id=drv" +++ Fmt.itoa k +++ ",file=" +++ file.

Definition deviceToken (k bootindex : nat) : string :=
  "virtio-blk-pci,drive=drv" +++ Fmt.itoa k +++ ",bootindex="
    +++ Fmt.itoa bootindex.

(** The tokens of the user disks [ds], the first of them numbered [k]. *)
Fixpoint userTokens (k : nat) (ds : list string) : list string :=
  match ds with
  | [] => []
  | d :: rest =>
      ["-drive"; driveToken k d; "-device"; deviceToken k (k + 1)]
        ++ userTokens (S k) rest
  end.

(** The two tokens of a removable medium numbered [k]. *)
Definition cdDriveToken (k : nat) (file : string) : string :=
  "if=none,id=drv" +++ Fmt.itoa k +++ ",media=cdrom,file=" +++ file.

Definition cdDeviceToken (k : nat) (bootindex : string) : string :=
  "scsi-cd,drive=drv" +++ Fmt.itoa k +++ ",bus=scsi0.0,bootindex="
    +++ bootindex.

(** The tokens of the two removable media behind their controller, the
    primary medium numbered [k]. *)
Definition mediaTokens (k : nat) (iso ds : string) : list string :=
  ["-device"; scsiController;
   "-drive"; cdDriveToken k iso; "-device"; cdDeviceToken k "50";
   "-drive"; cdDriveToken (S k) ds; "-device"; cdDeviceToken (S k) "60"].

(** The files [findQEMUBinary] looks for, in its order. *)
Definition candidates (qemuBinary : string) : list string :=
  map (fun p => filepath_Join [p; qemuBinary]) commonPaths.

(** [evs] are requests for the files [names], one each and in this order,
    all answered with an error. *)
Definition failedStats (evs : list Event) (names : list string) : Prop :=
  Forall2 (fun ev name => exists e, ev = EvStat name (Some e)) evs names.

(* ------------------------------------------------------------------ *)
(** ** A small host to run the operations on

    A world made of a set of existing paths, an optional [PATH] entry for
    the hypervisor, switches that make a collaborator fail, and a script
    for the monitor connection.  It is used to evaluate the operations on
    concrete configurations. *)

Module Sim.

Record W : Type := mkW {
  present : list string;
  onPath : option string;
  mkdirError : option error;
  shError : option error;
  writeAnswer : option (Z * option error);
  incoming : list Z;
  running : list string
}.

Definition quote : string := String (ascii_of_nat 34) EmptyString.

Definition notFound (file : string) : error :=
  HostError ("exec: " +++ quote +++ file +++ quote
               +++ ": executable file not found in $PATH").

Definition existsb_str (x : string) (l : list string) : bool :=
  existsb (String.eqb x) l.

Definition host : Host := {|
  World := W;
  os_Stat := fun name w =>
    (if existsb_str name (present w) then None
     else Some (HostError ("stat " +++ name +++ ": no such file or directory")),
     w);
  exec_LookPath := fun file w =>
    (match onPath w with
     | Some p => inl p
     | None => inr (notFound file)
     end, w);
  os_MkdirAll := fun path _ w =>
    (mkdirError w,
     match mkdirError w with
     | None => mkW (path :: present w) (onPath w) (mkdirError w) (shError w)
                   (writeAnswer w) (incoming w) (running w)
     | Some _ => w
     end);
  utils_SH := fun _ w => (("", shError w), w);
  pkg_monitor := fun ctx _ _ w => (ctx, w);
  process_Run := fun p w =>
    (None, mkW (present w) (onPath w) (mkdirError w) (shError w)
               (writeAnswer w) (incoming w) (procStateDir p :: running w));
  process_Stop := fun p w =>
    (if existsb_str (procStateDir p) (running w) then None
     else Some (HostError "no such process"),
     mkW (present w) (onPath w) (mkdirError w) (shError w) (writeAnswer w)
         (incoming w)
         (filter (fun d => negb (String.eqb d (procStateDir p))) (running w)));
  process_IsAlive := fun p w => (existsb_str (procStateDir p) (running w), w);
  net_Dial := fun _ _ w => (inl (mkConn 3), w);
  os_CreateTemp := fun _ _ w => (inl (mkFile "/tmp/qemu-screenshot-1.png"), w);
  file_Close := fun _ w => (None, w);
  os_Remove := fun _ w => (None, w);
  conn_Write := fun _ data w =>
    (match writeAnswer w with
     | Some r => r
     | None => (Z.of_nat (String.length data), None)
     end, w);
  conn_SetReadDeadline := fun _ _ w => (None, w);
  conn_Read := fun _ _ w =>
    match incoming w with
    | n :: rest =>
        ((n, None),
         mkW (present w) (onPath w) (mkdirError w) (shError w) (writeAnswer w)
             rest (running w))
    | [] => ((0%Z, Some (HostError "i/o timeout")), w)
    end;
  conn_Close := fun _ w => (None, w);
  os_RemoveAll := fun path w =>
    (None,
     mkW (filter (fun x => negb (GoPath.under path x)) (present w)) (onPath w)
         (mkdirError w) (shError w) (writeAnswer w) (incoming w) (running w))
|}.

(** The paths that exist in a world. *)
Definition pathExists (w : W) (x : string) : bool :=
  existsb_str x (present w).

(** A world where everything is in place and nothing fails. *)
Definition calm : W :=
  mkW ["/usr/bin/qemu-system-x86_64"] None None None None [] [].

(** A configuration with nothing but an identity and a state directory. *)
Definition bare : MachineConfig :=
  mkMachineConfig "vm" "2048" "2" "" "x86_64" [] [] false "" "" false
                  (mkSSH "2222") "" [] "/tmp/vm" "" None.

Definition withDrives (ds : list string) (m : MachineConfig) : MachineConfig :=
  mkMachineConfig (ID m) (Memory m) (CPU m) (CPUType m) (Arch m) ds
    (DriveSizes m) (AutoDriveSetup m) (ISO m) (DataSource m)
    (DisableDefaultNetworking m) (SSHConfig m) (Display m) (Args m)
    (StateDir m) (Process m) (OnFailure m).

Definition withMedia (iso ds : string) (m : MachineConfig) : MachineConfig :=
  mkMachineConfig (ID m) (Memory m) (CPU m) (CPUType m) (Arch m) (Drives m)
    (DriveSizes m) (AutoDriveSetup m) iso ds
    (DisableDefaultNetworking m) (SSHConfig m) (Display m) (Args m)
    (StateDir m) (Process m) (OnFailure m).

Definition withAuto (sizes : list string) (m : MachineConfig) : MachineConfig :=
  mkMachineConfig (ID m) (Memory m) (CPU m) (CPUType m) (Arch m) (Drives m)
    sizes true (ISO m) (DataSource m)
    (DisableDefaultNetworking m) (SSHConfig m) (Display m) (Args m)
    (StateDir m) (Process m) (OnFailure m).

Definition withStateDir (d : string) (m : MachineConfig) : MachineConfig :=
  mkMachineConfig (ID m) (Memory m) (CPU m) (CPUType m) (Arch m) (Drives m)
    (DriveSizes m) (AutoDriveSetup m) (ISO m) (DataSource m)
    (DisableDefaultNetworking m) (SSHConfig m) (Display m) (Args m)
    d (Process m) (OnFailure m).

Definition start (m : MachineConfig) (w : W) : Store host :=
  mkStore host (mkQEMU m None) w.

(** The value of [types.DefaultDriveSize] used in the examples. *)
Definition defaultSize : string := "30000".

(** The process handles an outcome launched. *)
Definition launched {A : Type} (o : Outcome host A) : list ProcessHandle :=
  flat_map (fun e => match e with EvRun p _ => [p] | _ => [] end) (events o).

End Sim.

(* ------------------------------------------------------------------ *)
(** ** Reading an argument list

    The hypervisor reads its arguments as options followed by their value.
    [valuesOf flag] are the values given to one option, in order. *)

Module QemuLine.

Fixpoint pairs (toks : list string) : list (string * string) :=
  match toks with
  | f :: v :: rest => (f, v) :: pairs rest
  | _ => []
  end.

Definition valuesOf (flag : string) (toks : list string) : list string :=
  map snd (filter (fun p => String.eqb (fst p) flag) (pairs toks)).

(** The values that carry the property [key], with what they give it. *)
Definition properties (key : string) (values : list string) : list string :=
  flat_map (fun v => match QemuOpt.fieldValue key v with
                     | Some x => [x]
                     | None => []
                     end) values.

End QemuLine.

(** A string field of the configuration is set. *)
Definition isSet (s : string) : bool := negb (String.eqb s "").

(** The tokens [genDrives] appends for the removable media, the next free
    drive number being [k]. *)
Definition mediaPart (k : nat) (iso ds : string) : list string :=
  (if isSet iso
   then ["-device"; scsiController;
         "-drive"; cdDriveToken k iso; "-device"; cdDeviceToken k "50"]
   else []) ++
  (if isSet ds
   then (if isSet iso then [] else ["-device"; scsiController]) ++
        ["-drive"; cdDriveToken (if isSet iso then S k else k) ds;
         "-device"; cdDeviceToken (if isSet iso then S k else k) "60"]
   else []).

(** The number of removable media of a configuration. *)
Definition mediaCount (m : MachineConfig) : nat :=
  (if isSet (ISO m) then 1 else 0) + (if isSet (DataSource m) then 1 else 0).

(** The drive identifiers [drv0], [drv1], ... *)
Definition driveIds (n : nat) : list string :=
  map (fun k => "drv" +++ Fmt.itoa k) (seq 0 n).

(** The image [Create] provisions at index [j], the images at the [n]
    indices from [i] on, and the commands that make them. *)
Definition imageName (m : MachineConfig) (j : nat) : string :=
  filepath_Join [StateDir m; ID m +++ "-" +++ Fmt.itoa j +++ ".img"].

Definition imageNames (m : MachineConfig) (i n : nat) : list string :=
  map (imageName m) (seq i n).

Definition imageCommands (m : MachineConfig) (i : nat) (sizes : list string)
  : list string :=
  map (fun js => "qemu-img create -f qcow2 " +++ imageName m (fst js)
                   +++ " " +++ snd js)
      (combine (seq i (length sizes)) sizes).

(** The shell commands among some events. *)
Definition shCommands (evs : list Event) : list string :=
  flat_map (fun e => match e with EvSH c _ => [c] | _ => [] end) evs.

(** More kinds of events: opening or closing a connection, writing to
    one. *)
Definition isConnEnd (e : Event) : bool :=
  match e with
  | EvDial _ _ _ | EvConnClose _ _ => true
  | _ => false
  end.

Definition isWrite (e : Event) : bool :=
  match e with
  | EvWrite _ _ _ => true
  | _ => false
  end.

(** A read of 1024 bytes on [conn] that returned no error. *)
Definition goodRead (conn : Conn) (e : Event) : Prop :=
  exists n, e = EvRead conn 1024 (n, None).

(* ------------------------------------------------------------------ *)
(** ** The test helper [VM] (package [matcher])

    [VM] holds a machine behind the interface [types.Machine];
    [Destroy] uses its [Stop] and [Clean]. *)

Section Matcher.

Variable H : Host.

(** The part of [types.Machine] that [Destroy] calls. *)
Record Machine : Type := mkMachine {
  machine_Stop : M H (option error);
  machine_Clean : M H (option error)
}.

(** [*QEMU] as a [types.Machine]. *)
Definition qemuMachine : Machine := mkMachine (Stop (H:=H)) (Clean (H:=H)).

(** [type VM struct]; a [nil] machine is [None]. *)
Record VM : Type := mkVM {
  machine : option Machine;
  vmStateDir : string
}.

Definition NewVM (m : option Machine) (s : string) : VM := mkVM m s.

Definition Destroy (vm : VM) (additionalCleanup : VM -> M H unit)
  : M H (option error) :=
  bind (additionalCleanup vm) (fun _ =>
  match machine vm with
  | Some mach =>
      bind (machine_Stop mach) (fun err =>
      match err with
      | Some e => ret (Some e)
      | None =>
          bind (machine_Clean mach) (fun err =>
          match err with
          | Some e => ret (Some e)
          | None => ret None
          end)
      end)
  | None => ret None
  end).

End Matcher.

(** A configuration with other networking settings. *)
Definition withNetworking (disabled : bool) (port : string)
    (m : MachineConfig) : MachineConfig :=
  mkMachineConfig (ID m) (Memory m) (CPU m) (CPUType m) (Arch m) (Drives m)
    (DriveSizes m) (AutoDriveSetup m) (ISO m) (DataSource m)
    disabled (mkSSH port) (Display m) (Args m)
    (StateDir m) (Process m) (OnFailure m).

(** The display string [Create] splits: [-nographic] unless one is
    configured. *)
Definition displayOf (m : MachineConfig) : string :=
  if isSet (Display m) then Display m else "-nographic".

(** The number of occurrences of the byte [c] in [s]. *)
Fixpoint countByte (c : ascii) (s : string) : nat :=
  match s with
  | EmptyString => 0
  | String a s' => (if Ascii.eqb a c then 1 else 0) + countByte c s'
  end.

(* ------------------------------------------------------------------ *)
(** ** The earlier revision of the backend

    The repository also holds an earlier revision of [qemu.go], with one
    drive per machine ([Drive]), a fixed default binary and the removable
    media on the IDE bus.  Its [Create], [genDrives] and [driveSize] are
    modelled here, the receiver being passed and returned; the other
    functions of that revision are those modelled above. *)

Module Legacy.

Record MachineConfig : Type := mkMachineConfig {
  ID : string;
  Memory : string;
  CPU : string;
  CPUType : string;
  Drive : string;
  AutoDriveSetup : bool;
  ISO : string;
  DataSource : string;
  SSHConfig : SSH;
  Display : string;
  Args : list string;
  StateDir : string;
  Process : string;
  OnFailure : option Hook
}.

Record QEMU : Type := mkQEMU {
  machineConfig : MachineConfig;
  process : option ProcessHandle
}.

Definition monitorSockFile (q : QEMU) : string :=
  path_Join [StateDir (machineConfig q); "qemu-monitor.sock"].

(** The closure [genDrives]; [drive] is the variable of [Create] it
    captures. *)
Definition genDrives (drive : string) (m : MachineConfig) : list string :=
  let drives := [] in
  let drives :=
    if isSet (ISO m)
    then drives ++ ["-drive"; "if=ide,media=cdrom,file=" +++ ISO m]
    else drives in
  let drives :=
    if isSet (DataSource m)
    then drives ++ ["-drive"; "if=ide,media=cdrom,file=" +++ DataSource m]
    else drives in
  let drives :=
    if isSet drive
    then drives ++ ["-drive"; "if=virtio,media=disk,file=" +++ drive]
    else drives in
  drives.

Definition createOpts (q : QEMU) : list string :=
  let m := machineConfig q in
  let display := if isSet (Display m) then Display m else "-nographic" in
  let opts :=
    ["-m"; Memory m;
     "-smp"; "cores=" +++ CPU m;
     "-rtc"; "base=utc,clock=rt";
     "-monitor"; "unix:" +++ monitorSockFile q +++ ",server,nowait";
     "-device"; "virtio-serial";
     "-nic"; "user,hostfwd=tcp::" +++ Port (SSHConfig m) +++ "-:22"] in
  let opts := opts ++ Fmt.split " " display in
  let opts :=
    if isSet (CPUType m) then opts ++ ["-cpu"; CPUType m] else opts in
  opts ++ Args m.

(** The name of the image this revision provisions. *)
Definition imageFile (m : MachineConfig) : string := ID m +++ ".img".

Section Operations.

Variable H : Host.
Variable DefaultDriveSize : string.

Local Notation "x <- m ;; k" := (bind m (fun x => k))
  (at level 61, m at next level, right associativity).

Definition driveSize (q : QEMU) : string :=
  let driveSize :=
    if isSet (Drive (machineConfig q)) then Drive (machineConfig q)
    else DefaultDriveSize in
  driveSize +++ "M".

Definition CreateDisk (q : QEMU) (diskname size : string)
  : M H (option error) :=
  let dir := StateDir (machineConfig q) in
  err <- call (EvMkdirAll dir os_ModePerm) (os_MkdirAll H dir os_ModePerm) ;;
  match err with
  | Some e => ret (Some e)
  | None =>
      let command :=
        "qemu-img create -f qcow2 " +++ filepath_Join [dir; diskname]
          +++ " " +++ size in
      r <- call (EvSH command) (utils_SH H command) ;;
      match snd r with
      | Some e => ret (Some (Wrapf (fst r +++ " : ") e))
      | None => ret None
      end
  end.

(** The first block of [Create]: the drive the machine runs on. *)
Definition provisionDrive (q : QEMU) : M H (string + error) :=
  let m := machineConfig q in
  let size := driveSize q in
  if AutoDriveSetup m && String.eqb (Drive m) ""
  then
    err <- CreateDisk q (imageFile m) size ;;
    match err with
    | Some e => ret (inr (Wrapf ("creating disk with size " +++ size +++ ": ") e))
    | None => ret (inl (filepath_Join [StateDir m; imageFile m]))
    end
  else ret (inl (Drive m)).

Definition processNameOf (m : MachineConfig) : string :=
  if isSet (Process m) then Process m else "/usr/bin/qemu-system-x86_64".

(** [Create]; the result carries the receiver as [Create] leaves it. *)
Definition Create (q : QEMU) (ctx : Ctx)
  : M H (QEMU * (Ctx * option error)) :=
  let m := machineConfig q in
  r <- provisionDrive q ;;
  match r with
  | inr err => ret (q, (ctx, Some err))
  | inl drive =>
      let qemu :=
        process_New [WithName (processNameOf m);
                     WithArgs (createOpts q);
                     WithArgs (genDrives drive m);
                     WithStateDir (StateDir m)] in
      newCtx <- call (EvMonitor ctx qemu (OnFailure m))
                     (pkg_monitor H ctx qemu (OnFailure m)) ;;
      err <- call (EvRun qemu) (process_Run H qemu) ;;
      ret (mkQEMU m (Some qemu), (newCtx, err))
  end.

End Operations.

(** A configuration to run the earlier revision on. *)
Definition sample : MachineConfig :=
  mkMachineConfig "vm" "2048" "2" "" "" true "" "" (mkSSH "2222") "" []
                  "/tmp/vm" "" None.

Definition withDrive (d : string) (m : MachineConfig) : MachineConfig :=
  mkMachineConfig (ID m) (Memory m) (CPU m) (CPUType m) d (AutoDriveSetup m)
    (ISO m) (DataSource m) (SSHConfig m) (Display m) (Args m) (StateDir m)
    (Process m) (OnFailure m).

End Legacy.

(* ------------------------------------------------------------------ *)
(** ** More cases to run *)

Module Cases.

Definition withProcess (name : string) (m : MachineConfig) : MachineConfig :=
  mkMachineConfig (ID m) (Memory m) (CPU m) (CPUType m) (Arch m) (Drives m)
    (DriveSizes m) (AutoDriveSetup m) (ISO m) (DataSource m)
    (DisableDefaultNetworking m) (SSHConfig m) (Display m) (Args m)
    (StateDir m) name (OnFailure m).

(** The small host, with a connection that refuses a read deadline. *)
Definition noDeadline : Host := {|
  World := Sim.W;
  os_Stat := os_Stat Sim.host;
  exec_LookPath := exec_LookPath Sim.host;
  os_MkdirAll := os_MkdirAll Sim.host;
  utils_SH := utils_SH Sim.host;
  pkg_monitor := pkg_monitor Sim.host;
  process_Run := process_Run Sim.host;
  process_Stop := process_Stop Sim.host;
  process_IsAlive := process_IsAlive Sim.host;
  net_Dial := net_Dial Sim.host;
  os_CreateTemp := os_CreateTemp Sim.host;
  file_Close := file_Close Sim.host;
  os_Remove := os_Remove Sim.host;
  conn_Write := conn_Write Sim.host;
  conn_SetReadDeadline := fun _ _ w =>
    (Some (HostError "set deadline: use of closed connection"), w);
  conn_Read := conn_Read Sim.host;
  conn_Close := conn_Close Sim.host;
  os_RemoveAll := os_RemoveAll Sim.host
|}.

Definition withID (id : string) (m : MachineConfig) : MachineConfig :=
  mkMachineConfig id (Memory m) (CPU m) (CPUType m) (Arch m) (Drives m)
    (DriveSizes m) (AutoDriveSetup m) (ISO m) (DataSource m)
    (DisableDefaultNetworking m) (SSHConfig m) (Display m) (Args m)
    (StateDir m) (Process m) (OnFailure m).

(** The last element of a path is [.]: such a path [os.RemoveAll]
    refuses, as the system call that removes a directory does. *)
Fixpoint endsWithSlashDot (p : string) : bool :=
  match p with
  | EmptyString => false
  | String a rest =>
      match rest with
      | String b EmptyString => Ascii.eqb a "/" && Ascii.eqb b "."
      | _ => endsWithSlashDot rest
      end
  end.

Definition endsWithDot (p : string) : bool :=
  String.eqb p "." || endsWithSlashDot p.

(** The small host, with an [os.RemoveAll] that returns an error for a
    path that ends in [.] and removes nothing then. *)
Definition refusesDot : Host := {|
  World := Sim.W;
  os_Stat := os_Stat Sim.host;
  exec_LookPath := exec_LookPath Sim.host;
  os_MkdirAll := os_MkdirAll Sim.host;
  utils_SH := utils_SH Sim.host;
  pkg_monitor := pkg_monitor Sim.host;
  process_Run := process_Run Sim.host;
  process_Stop := process_Stop Sim.host;
  process_IsAlive := process_IsAlive Sim.host;
  net_Dial := net_Dial Sim.host;
  os_CreateTemp := os_CreateTemp Sim.host;
  file_Close := file_Close Sim.host;
  os_Remove := os_Remove Sim.host;
  conn_Write := conn_Write Sim.host;
  conn_SetReadDeadline := conn_SetReadDeadline Sim.host;
  conn_Read := conn_Read Sim.host;
  conn_Close := conn_Close Sim.host;
  os_RemoveAll := fun path w =>
    if endsWithDot path
    then (Some (HostError ("RemoveAll " +++ path +++ ": invalid argument")), w)
    else os_RemoveAll Sim.host path w
|}.

(** A world where the image command fails. *)
Definition diskFull : Sim.W :=
  Sim.mkW [] None None (Some (HostError "exit status 1")) None [] [].

(** A world with two chunks to read from the monitor. *)
Definition chatty : Sim.W :=
  Sim.mkW [] None None None None [10%Z; 20%Z] [].

End Cases.

(* ================================================================== *)
(** * Properties *)

(** ** Strings *)

Section StringFacts.

Lemma append_assoc (a b c : string) : (a +++ b) +++ c = a +++ (b +++ c).
Proof. induction a as [|x a IH]; simpl; [reflexivity | now rewrite IH]. Qed.

Lemma lacks_app (c : ascii) (a b : string) :
  Fmt.lacks c (a +++ b) = Fmt.lacks c a && Fmt.lacks c b.
Proof.
  induction a as [|x a IH]; simpl; [reflexivity|].
  rewrite IH. now rewrite andb_assoc.
Qed.

Lemma split_lacks (c : ascii) (s : string) :
  Fmt.lacks c s = true -> Fmt.split c s = [s].
Proof.
  induction s as [|x s IH]; simpl; [reflexivity|].
  intros Hl. apply andb_true_iff in Hl as [Hx Hs].
  apply negb_true_iff in Hx. rewrite Hx, (IH Hs). reflexivity.
Qed.

Lemma split_app (c : ascii) (a b : string) :
  Fmt.lacks c a = true ->
  Fmt.split c (a +++ String c b) = a :: Fmt.split c b.
Proof.
  induction a as [|x a IH]; simpl.
  - intros _. now rewrite Ascii.eqb_refl.
  - intros Hl. apply andb_true_iff in Hl as [Hx Ha].
    apply negb_true_iff in Hx. rewrite Hx, (IH Ha). reflexivity.
Qed.

Lemma stripPrefix_app (p s : string) : Fmt.stripPrefix p (p +++ s) = Some s.
Proof.
  induction p as [|x p IH]; simpl; [reflexivity|].
  now rewrite Ascii.eqb_refl.
Qed.

(** A decimal numeral holds digits only: no comma, no slash. *)
Lemma digits_lack (c : ascii) (d : Decimal.uint) :
  (nat_of_ascii c < 48 \/ 57 < nat_of_ascii c) ->
  Fmt.lacks c (NilEmpty.string_of_uint d) = true.
Proof.
  intros Hc.
  assert (Hne : forall k, 48 <= k <= 57 -> Ascii.eqb (ascii_of_nat k) c = false).
  { intros k Hk. apply Ascii.eqb_neq. intros <-.
    rewrite nat_ascii_embedding in Hc; lia. }
  induction d; simpl; try reflexivity; rewrite IHd, andb_true_r;
    apply negb_true_iff.
  - apply (Hne 48); lia.
  - apply (Hne 49); lia.
  - apply (Hne 50); lia.
  - apply (Hne 51); lia.
  - apply (Hne 52); lia.
  - apply (Hne 53); lia.
  - apply (Hne 54); lia.
  - apply (Hne 55); lia.
  - apply (Hne 56); lia.
  - apply (Hne 57); lia.
Qed.

Lemma itoa_lacks (c : ascii) (n : nat) :
  (nat_of_ascii c < 48 \/ 57 < nat_of_ascii c) ->
  Fmt.lacks c (Fmt.itoa n) = true.
Proof.
  intros Hc. unfold Fmt.itoa, NilZero.string_of_uint.
  destruct (Nat.to_uint n); cbv match;
    [exact (digits_lack c (Decimal.D0 Decimal.Nil) Hc) | ..];
    exact (digits_lack c _ Hc).
Qed.

Lemma itoa_lacks_comma (n : nat) : Fmt.lacks "," (Fmt.itoa n) = true.
Proof. apply itoa_lacks. left. cbv. repeat constructor. Qed.

(** Printing a number and reading it back. *)
Lemma atoi_itoa (n : nat) : Fmt.atoi (Fmt.itoa n) = Some n.
Proof.
  unfold Fmt.atoi, Fmt.itoa.
  destruct (Decimal.uint_eq_dec (Nat.to_uint n) Decimal.Nil) as [E | E].
  - rewrite E, NilZero.usu_nil. simpl.
    rewrite <- (DecimalNat.Unsigned.of_to n), E. reflexivity.
  - rewrite (NilZero.usu _ E). simpl. now rewrite DecimalNat.Unsigned.of_to.
Qed.

End StringFacts.

(** ** The tokens of [genDrives] *)

Section GenDrives.

Lemma userDisks_tokens (ds : list string) (k : nat) (st : GenState) :
  nextId st = k ->
  userDisks k ds st =
    mkGen (allDrives st ++ userTokens k ds) (scsiAdded st) (k + length ds).
Proof.
  revert k st. induction ds as [|d rest IH]; intros k st Hk.
  - cbn [userDisks userTokens length].
    rewrite app_nil_r, Nat.add_0_r, <- Hk. now destruct st.
  - cbn [userDisks userTokens length].
    rewrite IH by (cbn [nextId]; now rewrite Hk).
    cbn [allDrives scsiAdded]. rewrite Hk, <- app_assoc.
    f_equal. lia.
Qed.

Lemma userTokens_length (ds : list string) (k : nat) :
  length (userTokens k ds) = 4 * length ds.
Proof.
  revert k. induction ds as [|d rest IH]; intros k; simpl; [reflexivity|].
  rewrite IH. lia.
Qed.

Lemma userTokens_nth (ds : list string) (k i : nat) (d : string) :
  nth_error ds i = Some d ->
  firstn 4 (skipn (4 * i) (userTokens k ds)) =
    ["-drive"; driveToken (k + i) d; "-device"; deviceToken (k + i) (k + i + 1)].
Proof.
  revert k i. induction ds as [|x rest IH]; intros k i Hn.
  - destruct i; discriminate.
  - destruct i as [|i].
    + simpl in Hn. injection Hn as ->. simpl. now rewrite Nat.add_0_r.
    + simpl in Hn. replace (4 * S i) with (4 + 4 * i) by lia.
      simpl userTokens. cbn [app]. cbn [Nat.add skipn].
      rewrite (IH (S k) i Hn).
      replace (k + S i) with (S k + i) by lia. reflexivity.
Qed.

Lemma userTokens_nth_device (ds : list string) (k i : nat) (d : string) :
  nth_error ds i = Some d ->
  nth_error (userTokens k ds) (4 * i + 3) =
    Some (deviceToken (k + i) (k + i + 1)).
Proof.
  revert k i. induction ds as [|x rest IH]; intros k i Hn.
  - destruct i; discriminate.
  - destruct i as [|i].
    + cbn. now rewrite Nat.add_0_r.
    + cbn [nth_error] in Hn.
      replace (4 * S i + 3) with (S (S (S (S (4 * i + 3))))) by lia.
      cbn [userTokens app nth_error].
      rewrite (IH (S k) i Hn).
      replace (k + S i) with (S k + i) by lia. reflexivity.
Qed.

Lemma deviceToken_fields (k b : nat) :
  Fmt.split "," (deviceToken k b) =
    ["virtio-blk-pci"; "drive=drv" +++ Fmt.itoa k; "bootindex=" +++ Fmt.itoa b].
Proof.
  unfold deviceToken.
  change ("virtio-blk-pci,drive=drv" +++ Fmt.itoa k +++ ",bootindex="
            +++ Fmt.itoa b)
    with ("virtio-blk-pci" +++
            String "," ("drive=drv" +++ Fmt.itoa k +++
                          String "," ("bootindex=" +++ Fmt.itoa b))).
  rewrite split_app by reflexivity.
  rewrite <- append_assoc.
  rewrite split_app.
  2:{ rewrite lacks_app, itoa_lacks_comma. reflexivity. }
  rewrite split_lacks.
  2:{ rewrite lacks_app, itoa_lacks_comma. reflexivity. }
  reflexivity.
Qed.

Lemma bootindexOf_deviceToken (k b : nat) :
  QemuOpt.bootindexOf (deviceToken k b) = Some b.
Proof.
  unfold QemuOpt.bootindexOf, QemuOpt.fieldValue.
  rewrite deviceToken_fields. simpl.
  apply atoi_itoa.
Qed.

Lemma cdDeviceToken_fields (k : nat) (b : string) :
  Fmt.lacks "," b = true ->
  Fmt.split "," (cdDeviceToken k b) =
    ["scsi-cd"; "drive=drv" +++ Fmt.itoa k; "bus=scsi0.0"; "bootindex=" +++ b].
Proof.
  intros Hb. unfold cdDeviceToken.
  change ("scsi-cd,drive=drv" +++ Fmt.itoa k +++ ",bus=scsi0.0,bootindex=" +++ b)
    with ("scsi-cd" +++
            String "," ("drive=drv" +++ Fmt.itoa k +++
              String "," ("bus=scsi0.0" +++ String "," ("bootindex=" +++ b)))).
  rewrite split_app by reflexivity.
  rewrite <- append_assoc.
  rewrite split_app.
  2:{ rewrite lacks_app, itoa_lacks_comma. reflexivity. }
  rewrite split_app by reflexivity.
  rewrite split_lacks.
  2:{ rewrite lacks_app, Hb. reflexivity. }
  reflexivity.
Qed.

Lemma bootindexOf_cdDeviceToken (k b : nat) :
  QemuOpt.bootindexOf (cdDeviceToken k (Fmt.itoa b)) = Some b.
Proof.
  unfold QemuOpt.bootindexOf, QemuOpt.fieldValue.
  rewrite cdDeviceToken_fields by apply itoa_lacks_comma. simpl.
  apply atoi_itoa.
Qed.

(** No token of a user disk is the controller token. *)
Lemma userTokens_no_controller (ds : list string) (k : nat) :
  ~ In scsiController (userTokens k ds).
Proof.
  revert k. induction ds as [|d rest IH]; intros k; cbn [userTokens app].
  - intros [].
  - unfold scsiController, driveToken, deviceToken.
    intros [E | [E | [E | [E | Hin]]]]; try discriminate E.
    exact (IH _ Hin).
Qed.

Lemma genDrives_no_media (ud : list string) (m : MachineConfig) :
  ISO m = "" -> DataSource m = "" ->
  genDrives ud m = userTokens 0 ud.
Proof.
  intros Hi Hd. unfold genDrives.
  rewrite Hi, Hd. cbn [String.eqb negb].
  rewrite userDisks_tokens by reflexivity. reflexivity.
Qed.

Lemma genDrives_both_media (ud : list string) (m : MachineConfig) :
  ISO m <> "" -> DataSource m <> "" ->
  genDrives ud m =
    userTokens 0 ud ++ mediaTokens (length ud) (ISO m) (DataSource m).
Proof.
  intros Hi Hd. unfold genDrives.
  apply String.eqb_neq in Hi. apply String.eqb_neq in Hd.
  rewrite Hi, Hd. cbn [negb].
  rewrite userDisks_tokens by reflexivity.
  unfold cdrom, addSCSIIfNeeded.
  cbn [scsiAdded nextId allDrives negb Nat.add].
  rewrite <- !app_assoc. reflexivity.
Qed.

Lemma mediaTokens_one_controller (k : nat) (iso ds : string) :
  count_occ string_dec (mediaTokens k iso ds) scsiController = 1.
Proof.
  unfold mediaTokens, scsiController, cdDriveToken, cdDeviceToken.
  cbn [count_occ].
  repeat match goal with
         | |- context [string_dec ?a ?b] =>
             destruct (string_dec a b) as [E | E];
             [try discriminate E | try (exfalso; apply E; reflexivity)]
         end.
  reflexivity.
Qed.

End GenDrives.


(** ** Operations that leave the receiver alone *)

Section Frames.

Variable H : Host.
Variable DefaultDriveSize : string.

Lemma quiet_ret {A : Type} (P : Event -> bool) (a : A) :
  quiet P (ret (H:=H) a).
Proof. intros st. split; reflexivity. Qed.

Lemma quiet_getSelf (P : Event -> bool) : quiet P (getSelf (H:=H)).
Proof. intros st. split; reflexivity. Qed.

Lemma quiet_bind {A B : Type} (P : Event -> bool) (m : M H A) (f : A -> M H B) :
  quiet P m -> (forall a, quiet P (f a)) -> quiet P (bind m f).
Proof.
  intros Hm Hf st. unfold bind. cbn [final events].
  destruct (Hm st) as [Hs He].
  destruct (Hf (value (m st)) (final (m st))) as [Hs' He'].
  split.
  - now rewrite Hs', Hs.
  - rewrite forallb_app, He, He'. reflexivity.
Qed.

Lemma quiet_call {A : Type} (P : Event -> bool) (ev : A -> Event)
    (op : World H -> A * World H) :
  (forall a, P (ev a) = true) -> quiet P (call ev op).
Proof.
  intros Hp st. unfold call. cbn [final events self forallb].
  split; [reflexivity | now rewrite Hp].
Qed.

Lemma quiet_CreateDisk (diskname size : string) :
  quiet isDisk (CreateDisk (H:=H) diskname size).
Proof.
  unfold CreateDisk.
  apply quiet_bind; [apply quiet_getSelf | intros q].
  apply quiet_bind; [now apply quiet_call | intros [e|]].
  - apply quiet_ret.
  - apply quiet_bind; [now apply quiet_call | intros [out [e|]]];
      apply quiet_ret.
Qed.

Lemma quiet_provision (sizes : list string) (i : nat) (ud : list string) :
  quiet isDisk (provision (H:=H) i sizes ud).
Proof.
  revert i ud. induction sizes as [|s rest IH]; intros i ud; cbn [provision].
  - apply quiet_ret.
  - apply quiet_bind; [apply quiet_getSelf | intros q].
    apply quiet_bind; [apply quiet_CreateDisk | intros [e|]].
    + apply quiet_ret.
    + apply IH.
Qed.

Lemma quiet_provisionDrives :
  quiet isDisk (provisionDrives (H:=H) DefaultDriveSize).
Proof.
  unfold provisionDrives.
  apply quiet_bind; [apply quiet_getSelf | intros q].
  destruct (AutoDriveSetup (machineConfig q) && _).
  - apply quiet_provision.
  - apply quiet_ret.
Qed.

Lemma quiet_searchCommon (bin : string) (paths : list string) :
  quiet isSearch (searchCommon (H:=H) bin paths).
Proof.
  induction paths as [|p rest IH]; cbn [searchCommon].
  - apply quiet_ret.
  - apply quiet_bind; [now apply quiet_call | intros [e|]].
    + apply IH.
    + apply quiet_ret.
Qed.

Lemma quiet_findQEMUBinary (arch : string) :
  quiet isSearch (findQEMUBinary (H:=H) arch).
Proof.
  unfold findQEMUBinary.
  apply quiet_bind; [apply quiet_searchCommon | intros [p|]].
  - apply quiet_ret.
  - apply quiet_bind; [now apply quiet_call | intros [p|e]]; apply quiet_ret.
Qed.

Lemma quiet_resolveProcess : quiet isSearch (resolveProcess (H:=H)).
Proof.
  unfold resolveProcess.
  apply quiet_bind; [apply quiet_getSelf | intros q].
  destruct (negb _).
  - apply quiet_ret.
  - apply quiet_bind; [apply quiet_findQEMUBinary | intros [p|e]];
      apply quiet_ret.
Qed.

Lemma forallb_In_false (P Q : Event -> bool) (l : list Event) (e : Event) :
  forallb P l = true -> In e l -> (P e = true -> Q e = false) -> Q e = false.
Proof.
  intros Hall Hin Himp. apply Himp.
  rewrite forallb_forall in Hall. now apply Hall.
Qed.

End Frames.

(** ** What [Create] launches *)

Section CreateFacts.

Variable H : Host.
Variable DefaultDriveSize : string.

Lemma launchHandle_args (q : QEMU) (name : string) (ud : list string) :
  procArgs (launchHandle q name ud) =
    createOpts q ++ genDrives ud (machineConfig q).
Proof. reflexivity. Qed.

Lemma provisionDrives_configured (st : Store H) :
  AutoDriveSetup (machineConfig (self st)) = false \/
  Drives (machineConfig (self st)) <> [] ->
  provisionDrives DefaultDriveSize st =
    mkOutcome (inl (Drives (machineConfig (self st)))) [] st.
Proof.
  intros Hc. unfold provisionDrives, bind, getSelf. cbn [value final events].
  assert (E : AutoDriveSetup (machineConfig (self st))
              && Nat.eqb (length (Drives (machineConfig (self st)))) 0 = false).
  { destruct Hc as [-> | Hne]; [reflexivity|].
    destruct (Drives (machineConfig (self st))); [congruence|].
    apply andb_false_r. }
  rewrite E. reflexivity.
Qed.

(** Whatever [Create] runs was built from the receiver, the name found
    and the drives of the provisioning block. *)
Lemma Create_launch (st : Store H) (ctx : Ctx) (p : ProcessHandle)
    (err : option error) :
  In (EvRun p err) (events (Create DefaultDriveSize ctx st)) ->
  exists ud name,
    value (provisionDrives DefaultDriveSize st) = inl ud /\
    p = launchHandle (self st) name ud.
Proof.
  unfold Create, bind, getSelf. cbn [value final events app].
  destruct (quiet_provisionDrives DefaultDriveSize st) as [Hs1 He1].
  destruct (value (provisionDrives DefaultDriveSize st)) as [ud | e] eqn:E1.
  - destruct (quiet_resolveProcess
                (final (provisionDrives DefaultDriveSize st))) as [Hs2 He2].
    destruct (value (resolveProcess
                       (final (provisionDrives DefaultDriveSize st))))
      as [name | e] eqn:E2.
    + cbn. rewrite !in_app_iff. intros [Hin | [Hin | Hin]].
      * apply (forallb_In_false _ isLaunch _ _ He1) in Hin; [discriminate|].
        now destruct (EvRun p err).
      * apply (forallb_In_false _ isLaunch _ _ He2) in Hin; [discriminate|].
        now destruct (EvRun p err).
      * cbn in Hin. destruct Hin as [Hin | [Hin | []]]; [discriminate|].
        injection Hin as <- _. exists ud, name. split; reflexivity.
    + cbn. rewrite app_nil_r, in_app_iff. intros [Hin | Hin].
      * apply (forallb_In_false _ isLaunch _ _ He1) in Hin; [discriminate|].
        now destruct (EvRun p err).
      * apply (forallb_In_false _ isLaunch _ _ He2) in Hin; [discriminate|].
        now destruct (EvRun p err).
  - cbn. rewrite app_nil_r. intros Hin.
    apply (forallb_In_false _ isLaunch _ _ He1) in Hin; [discriminate|].
    now destruct (EvRun p err).
Qed.

End CreateFacts.

(* ================================================================== *)
(** * The drive tokens *)

Section DriveClaims.

Variable H : Host.
Variable DefaultDriveSize : string.

(** C1, as amended.  For every configuration without primary and without
    secondary medium whose [N] persistent drives are the drives the machine
    runs on (automatic drive setup is off, or [N >= 1]): the process
    [Create] launches carries, after the option block, the tokens
    [genDrives] makes of these drives; they are [N] groups of four, the
    group of the drive at index [i] (from 0) being [-drive], its drive
    token, [-device] and its device token, whose boot priority reads
    [i + 1]; and the controller token is not among them. *)
Theorem persistent_drives_tokens (st : Store H) :
  let m := machineConfig (self st) in
  let toks := genDrives (Drives m) m in
  ISO m = "" ->
  DataSource m = "" ->
  AutoDriveSetup m = false \/ Drives m <> [] ->
  (forall ctx p err,
      In (EvRun p err) (events (Create DefaultDriveSize ctx st)) ->
      procArgs p = createOpts (self st) ++ toks) /\
  length toks = 4 * length (Drives m) /\
  (forall i d,
      nth_error (Drives m) i = Some d ->
      firstn 4 (skipn (4 * i) toks) =
        ["-drive"; driveToken i d; "-device"; deviceToken i (i + 1)] /\
      QemuOpt.bootindexOf (deviceToken i (i + 1)) = Some (i + 1)) /\
  ~ In scsiController toks.
Proof.
  intros m toks Hiso Hds Hconf. subst toks.
  rewrite (genDrives_no_media _ _ Hiso Hds).
  repeat split.
  - intros ctx p err Hin.
    destruct (Create_launch _ _ _ _ _ Hin) as (ud & name & Hud & ->).
    rewrite (provisionDrives_configured DefaultDriveSize st Hconf) in Hud.
    cbn [value] in Hud. injection Hud as <-.
    rewrite launchHandle_args. fold m.
    now rewrite (genDrives_no_media _ _ Hiso Hds).
  - apply userTokens_length.
  - now apply (userTokens_nth (Drives m) 0 i).
  - apply bootindexOf_deviceToken.
  - apply userTokens_no_controller.
Qed.

(** C2, as amended.  For every configuration with between 1 and 49
    persistent drives, a primary and a secondary medium: the process
    [Create] launches carries the tokens of [genDrives]; the controller
    token occurs exactly once in them; the device token of the primary
    medium reads boot priority 50, that of the secondary medium 60, and
    the device token of every persistent drive reads a priority below
    50. *)
Theorem media_share_one_controller (st : Store H) :
  let m := machineConfig (self st) in
  let n := length (Drives m) in
  let toks := genDrives (Drives m) m in
  1 <= n -> n < 50 ->
  ISO m <> "" ->
  DataSource m <> "" ->
  (forall ctx p err,
      In (EvRun p err) (events (Create DefaultDriveSize ctx st)) ->
      procArgs p = createOpts (self st) ++ toks) /\
  count_occ string_dec toks scsiController = 1 /\
  toks = userTokens 0 (Drives m) ++ mediaTokens n (ISO m) (DataSource m) /\
  (exists primary secondary,
      nth_error toks (4 * n + 5) = Some (cdDeviceToken n "50") /\
      nth_error toks (4 * n + 9) = Some (cdDeviceToken (S n) "60") /\
      QemuOpt.bootindexOf (cdDeviceToken n "50") = Some primary /\
      QemuOpt.bootindexOf (cdDeviceToken (S n) "60") = Some secondary /\
      primary = 50 /\ secondary = 60 /\ primary < secondary /\
      forall i d,
        nth_error (Drives m) i = Some d ->
        exists b,
          nth_error toks (4 * i + 3) = Some (deviceToken i b) /\
          QemuOpt.bootindexOf (deviceToken i b) = Some b /\
          b < primary).
Proof.
  intros m n toks Hn1 Hn50 Hiso Hds. subst toks.
  assert (Hconf : AutoDriveSetup m = false \/ Drives m <> []).
  { right. intros E. subst n. rewrite E in Hn1. cbn in Hn1. lia. }
  rewrite (genDrives_both_media _ _ Hiso Hds). fold n.
  assert (Hlen : length (userTokens 0 (Drives m)) = 4 * n)
    by apply userTokens_length.
  repeat split.
  - intros ctx p err Hin.
    destruct (Create_launch _ _ _ _ _ Hin) as (ud & name & Hud & ->).
    rewrite (provisionDrives_configured DefaultDriveSize st Hconf) in Hud.
    cbn [value] in Hud. injection Hud as <-.
    rewrite launchHandle_args. fold m.
    now rewrite (genDrives_both_media _ _ Hiso Hds).
  - rewrite count_occ_app, mediaTokens_one_controller.
    rewrite (proj1 (count_occ_not_In string_dec _ _)
               (userTokens_no_controller (Drives m) 0)).
    reflexivity.
  - exists 50, 60. repeat split.
    + rewrite nth_error_app2 by lia.
      replace (4 * n + 5 - length (userTokens 0 (Drives m))) with 5 by lia.
      reflexivity.
    + rewrite nth_error_app2 by lia.
      replace (4 * n + 9 - length (userTokens 0 (Drives m))) with 9 by lia.
      reflexivity.
    + exact (bootindexOf_cdDeviceToken n 50).
    + exact (bootindexOf_cdDeviceToken (S n) 60).
    + lia.
    + intros i d Hnth. exists (i + 1).
      assert (Hi : i < n) by (apply nth_error_Some; fold m; congruence).
      repeat split.
      * rewrite nth_error_app1 by lia.
        exact (userTokens_nth_device (Drives m) 0 i Hnth).
      * apply bootindexOf_deviceToken.
      * lia.
Qed.

End DriveClaims.

(** C1, as stated, fails: with automatic drive setup and no drive
    configured ([N = 0]), [Create] provisions an image and the launched
    process carries one drive/device pair. *)
Lemma persistent_drives_counterexample :
  let m := Sim.withAuto [] Sim.bare in
  let o := Create Sim.defaultSize (mkCtx 0) (Sim.start m Sim.calm) in
  length (Drives m) = 0 /\ ISO m = "" /\ DataSource m = "" /\
  map procArgs (Sim.launched o) =
    [createOpts (mkQEMU m None) ++
       ["-drive"; "if=none,id=drv0,file=/tmp/vm/vm-0.img";
        "-device"; "virtio-blk-pci,drive=drv0,bootindex=1"]].
Proof. vm_compute. repeat split. Qed.

Lemma persistent_drives_witness :
  let m := Sim.withDrives ["a.img"; "b.img"] Sim.bare in
  length (genDrives (Drives m) m) = 8 /\
  ~ In scsiController (genDrives (Drives m) m).
Proof.
  destruct (persistent_drives_tokens Sim.defaultSize
              (Sim.start (Sim.withDrives ["a.img"; "b.img"] Sim.bare) Sim.calm)
              eq_refl eq_refl (or_introl eq_refl))
    as (_ & Hlen & _ & Hno).
  split; [exact Hlen | exact Hno].
Defined.

(** C2, as stated, fails at fifty persistent drives: the fiftieth drive
    and the primary medium both read boot priority 50. *)
Lemma media_priority_counterexample :
  let m := Sim.withMedia "install.iso" "seed.iso"
             (Sim.withDrives (repeat "d.img" 50) Sim.bare) in
  let toks := genDrives (Drives m) m in
  length (Drives m) = 50 /\
  option_map QemuOpt.bootindexOf (nth_error toks (4 * 49 + 3)) = Some (Some 50) /\
  option_map QemuOpt.bootindexOf (nth_error toks (4 * 50 + 5)) = Some (Some 50).
Proof. vm_compute. repeat split. Qed.

Lemma media_share_one_controller_witness :
  let m := Sim.withMedia "install.iso" "seed.iso"
             (Sim.withDrives ["a.img"] Sim.bare) in
  count_occ string_dec (genDrives (Drives m) m) scsiController = 1.
Proof.
  refine (proj1 (proj2
    (media_share_one_controller Sim.defaultSize
       (Sim.start (Sim.withMedia "install.iso" "seed.iso"
                     (Sim.withDrives ["a.img"] Sim.bare)) Sim.calm)
       _ _ _ _))); cbn; try lia; discriminate.
Defined.

(* ================================================================== *)
(** * Provisioning, the option block and the search for the binary *)

Section CreateClaims.

Variable H : Host.
Variable DefaultDriveSize : string.

Lemma filter_other_kind (P Q : Event -> bool) (l : list Event) :
  forallb P l = true ->
  (forall e, P e = true -> Q e = false) ->
  filter Q l = [].
Proof.
  intros Hall Himp. induction l as [|e l IH]; [reflexivity|].
  cbn in Hall. apply andb_true_iff in Hall as [He Hl].
  cbn. rewrite (Himp e He). now apply IH.
Qed.

Lemma search_not_disk (e : Event) : isSearch e = true -> isDisk e = false.
Proof. now destruct e. Qed.

(** The disk requests of [Create] are those of its provisioning block. *)
Lemma Create_disk_events (st : Store H) (ctx : Ctx) :
  filter isDisk (events (Create DefaultDriveSize ctx st)) =
    filter isDisk (events (provisionDrives DefaultDriveSize st)).
Proof.
  unfold Create, bind, getSelf. cbn [value final events app].
  destruct (value (provisionDrives DefaultDriveSize st)) as [ud | e].
  - destruct (quiet_resolveProcess
                (final (provisionDrives DefaultDriveSize st))) as [_ He2].
    destruct (value (resolveProcess
                       (final (provisionDrives DefaultDriveSize st))))
      as [name | e]; cbn -[resolveProcess provisionDrives];
      rewrite !filter_app;
      rewrite (filter_other_kind _ isDisk _ He2 search_not_disk);
      cbn -[resolveProcess provisionDrives]; now rewrite app_nil_r.
  - cbn -[provisionDrives]. now rewrite app_nil_r.
Qed.

(** The disk requests of [Create] with automatic drive setup, no drive
    configured and one size: the state directory is made and, unless that
    fails, one [qemu-img create] command is run for the image
    [filepath.Join(StateDir, <id>-0.img)]; a process that is launched runs
    on this one image. *)
Lemma Create_one_image (st : Store H) (ctx : Ctx) (size : string) :
  let m := machineConfig (self st) in
  let image := filepath_Join [StateDir m; ID m +++ "-0.img"] in
  let command := "qemu-img create -f qcow2 " +++ image +++ " " +++ size in
  let mk := os_MkdirAll H (StateDir m) os_ModePerm (world st) in
  let sh := utils_SH H command (snd mk) in
  AutoDriveSetup m = true ->
  Drives m = [] ->
  (DriveSizes m = ["10240"] /\ size = "10240M") \/
  (DriveSizes m = [] /\ size = DefaultDriveSize +++ "M") ->
  filter isDisk (events (Create DefaultDriveSize ctx st)) =
    EvMkdirAll (StateDir m) os_ModePerm (fst mk)
      :: match fst mk with
         | Some _ => []
         | None => [EvSH command (fst sh)]
         end /\
  (forall p err,
      In (EvRun p err) (events (Create DefaultDriveSize ctx st)) ->
      procArgs p = createOpts (self st) ++ genDrives [image] m).
Proof.
  intros m image command mk sh Hauto Hdrives Hsizes.
  assert (Hs : driveSizes DefaultDriveSize m = [size]).
  { unfold driveSizes.
    destruct Hsizes as [[-> ->] | [-> ->]]; reflexivity. }
  assert (Hp : provisionDrives DefaultDriveSize st =
               provision 0 [size] [] st).
  { unfold provisionDrives, bind, getSelf. cbn [value final events].
    fold m. rewrite Hauto, Hdrives, Hs. cbn.
    destruct (provision 0 [size] [] st); reflexivity. }
  split.
  - rewrite Create_disk_events, Hp.
    unfold provision, CreateDisk, bind, call, getSelf, ret.
    cbn [value final events self world app].
    fold m. fold mk.
    destruct (fst mk) as [e|]; [reflexivity|].
    cbn [value final events self world app].
    match goal with
    | |- context [match snd (fst ?x) with _ => _ end] =>
        destruct (snd (fst x))
    end; reflexivity.
  - intros p err Hin.
    destruct (Create_launch _ _ _ _ _ Hin) as (ud & name & Hud & ->).
    rewrite launchHandle_args. fold m. f_equal.
    rewrite Hp in Hud. revert Hud.
    unfold provision, CreateDisk, bind, call, getSelf, ret.
    cbn [value final events self world app].
    fold m. fold mk.
    destruct (fst mk) as [e|]; [discriminate|].
    cbn [value final events self world app].
    match goal with
    | |- context [match snd (fst ?x) with _ => _ end] =>
        destruct (snd (fst x))
    end; [discriminate|].
    cbn. intros [= <-]. reflexivity.
Qed.

Lemma createOpts_ends_with_boot (q : QEMU) :
  exists pre, createOpts q = pre ++ ["-boot"; "order=dc,menu=on"].
Proof. unfold createOpts. cbv zeta. eexists. reflexivity. Qed.

Lemma genDrives_nil_iff (ud : list string) (m : MachineConfig) :
  genDrives ud m = [] <-> ud = [] /\ ISO m = "" /\ DataSource m = "".
Proof.
  split.
  - unfold genDrives. rewrite userDisks_tokens by reflexivity.
    unfold cdrom, addSCSIIfNeeded.
    destruct (String.eqb_spec (ISO m) "") as [Ei | Ei];
      destruct (String.eqb_spec (DataSource m) "") as [Ed | Ed];
      cbn [negb allDrives scsiAdded nextId app]; intros E.
    + destruct ud; [auto | discriminate E].
    + apply app_eq_nil in E as [_ E]. discriminate E.
    + apply app_eq_nil in E as [_ E]. discriminate E.
    + apply app_eq_nil in E as [_ E]. discriminate E.
  - intros (-> & Hi & Hd). now rewrite genDrives_no_media.
Qed.

(** C4, as amended.  In the argument list [Create] hands to the process
    manager, [-boot order=dc,menu=on] is the last pair of the option
    block; the drive tokens of [genDrives] follow it.  It is the last pair
    of the whole list exactly when there is no drive and no medium. *)
Theorem boot_directive_ends_options (st : Store H) (ctx : Ctx)
    (p : ProcessHandle) (err : option error) :
  let m := machineConfig (self st) in
  In (EvRun p err) (events (Create DefaultDriveSize ctx st)) ->
  exists pre ud,
    createOpts (self st) = pre ++ ["-boot"; "order=dc,menu=on"] /\
    value (provisionDrives DefaultDriveSize st) = inl ud /\
    procArgs p = pre ++ ["-boot"; "order=dc,menu=on"] ++ genDrives ud m /\
    (genDrives ud m = [] <-> ud = [] /\ ISO m = "" /\ DataSource m = "").
Proof.
  intros m Hin.
  destruct (Create_launch _ _ _ _ _ Hin) as (ud & name & Hud & ->).
  destruct (createOpts_ends_with_boot (self st)) as [pre Hpre].
  exists pre, ud. split; [exact Hpre|]. split; [exact Hud|]. split.
  - rewrite launchHandle_args, Hpre, <- app_assoc. reflexivity.
  - apply genDrives_nil_iff.
Qed.

End CreateClaims.

Section SearchClaims.

Variable H : Host.
Variable DefaultDriveSize : string.

Lemma searchCommon_order (bin : string) (paths : list string) (st : Store H) :
  let o := searchCommon bin paths st in
  let cs := map (fun p => filepath_Join [p; bin]) paths in
  (exists k p evs,
      nth_error cs k = Some p /\ failedStats evs (firstn k cs) /\
      events o = evs ++ [EvStat p None] /\ value o = Some p) \/
  (failedStats (events o) cs /\ value o = None).
Proof.
  revert st. induction paths as [|x rest IH]; intros st.
  - right. split; [constructor | reflexivity].
  - cbn [searchCommon map]. unfold bind, call.
    cbn [value final events app].
    destruct (fst (os_Stat H (filepath_Join [x; bin]) (world st)))
      as [e|] eqn:E.
    + destruct (IH (mkStore H (self st)
                      (snd (os_Stat H (filepath_Join [x; bin]) (world st)))))
        as [(k & p & evs & Hk & Hf & He & Hv) | [Hf Hv]].
      * left. exists (S k), p, (EvStat (filepath_Join [x; bin]) (Some e) :: evs).
        cbn [nth_error firstn]. repeat split.
        -- exact Hk.
        -- constructor; [now exists e | exact Hf].
        -- unfold call in He. cbn [app]. now rewrite He.
        -- exact Hv.
      * right. split; [| exact Hv].
        constructor; [now exists e | exact Hf].
    + left. exists 0, (filepath_Join [x; bin]), [].
      cbn. repeat split. constructor.
Qed.

(** The requests of [findQEMUBinary], and [Create] when it finds
    nothing. *)
Lemma search_order_and_failure (st : Store H) (ctx : Ctx) :
  let m := machineConfig (self st) in
  let bin := "qemu-system-" +++ Arch m in
  let notFound := bin +++ " not found in common paths or PATH: " in
  Process m = "" ->
  (forall st1 : Store H,
      let o := findQEMUBinary (Arch m) st1 in
      (exists k p evs,
          nth_error (candidates bin) k = Some p /\
          failedStats evs (firstn k (candidates bin)) /\
          events o = evs ++ [EvStat p None] /\ value o = inl p) \/
      (exists evs r,
          failedStats evs (candidates bin) /\
          events o = evs ++ [EvLookPath bin r] /\
          value o = match r with
                    | inl p => inl p
                    | inr e => inr (Wrapf notFound e)
                    end)) /\
  (forall ud cause,
      let st1 := final (provisionDrives DefaultDriveSize st) in
      value (provisionDrives DefaultDriveSize st) = inl ud ->
      value (findQEMUBinary (Arch m) st1) = inr cause ->
      value (Create DefaultDriveSize ctx st) =
        (ctx, Some (Wrapf "failed to find QEMU binary: " cause)) /\
      filter isLaunch (events (Create DefaultDriveSize ctx st)) = [] /\
      self (final (Create DefaultDriveSize ctx st)) = self st /\
      exists evs lookErr,
        failedStats evs (candidates bin) /\
        events (findQEMUBinary (Arch m) st1) =
          evs ++ [EvLookPath bin (inr lookErr)] /\
        cause = Wrapf notFound lookErr /\
        errorString (Wrapf "failed to find QEMU binary: " cause) =
          "failed to find QEMU binary: " +++ bin
            +++ " not found in common paths or PATH: "
            +++ errorString lookErr).
Proof.
  intros m bin notFound Hproc.
  assert (Hfind : forall st1 : Store H,
      let o := findQEMUBinary (Arch m) st1 in
      (exists k p evs,
          nth_error (candidates bin) k = Some p /\
          failedStats evs (firstn k (candidates bin)) /\
          events o = evs ++ [EvStat p None] /\ value o = inl p) \/
      (exists evs r,
          failedStats evs (candidates bin) /\
          events o = evs ++ [EvLookPath bin r] /\
          value o = match r with
                    | inl p => inl p
                    | inr e => inr (Wrapf notFound e)
                    end)).
  { intros st1 o. subst o. unfold findQEMUBinary, bind.
    cbn [value final events]. fold bin.
    destruct (searchCommon_order bin commonPaths st1)
      as [(k & p & evs & Hk & Hf & He & Hv) | [Hf Hv]].
    - left. exists k, p, evs. rewrite Hv. cbn [value events ret].
      rewrite app_nil_r. repeat split; assumption.
    - right. rewrite Hv. unfold call. cbn [value final events].
      exists (events (searchCommon bin commonPaths st1)).
      exists (fst (exec_LookPath H bin
                     (world (final (searchCommon bin commonPaths st1))))).
      split; [exact Hf|].
      match goal with
      | |- context [match fst ?x with _ => _ end] => destruct (fst x)
      end; cbn [value events ret]; split; reflexivity. }
  split; [exact Hfind|].
  intros ud cause st1 Hud Hcause.
  destruct (quiet_provisionDrives DefaultDriveSize st) as [Hs1 He1].
  destruct (quiet_findQEMUBinary (Arch m) st1) as [Hs2 He2].
  assert (Hres : resolveProcess st1 =
                 mkOutcome (inr (Wrapf "failed to find QEMU binary: " cause))
                           (events (findQEMUBinary (Arch m) st1))
                           (final (findQEMUBinary (Arch m) st1))).
  { unfold resolveProcess, bind, getSelf. cbn [value final events app].
    subst st1. rewrite Hs1. fold m. rewrite Hproc. cbn [String.eqb negb].
    rewrite Hcause. cbn [value final events ret]. now rewrite app_nil_r. }
  assert (Hcreate : Create DefaultDriveSize ctx st =
            mkOutcome (ctx, Some (Wrapf "failed to find QEMU binary: " cause))
              (events (provisionDrives DefaultDriveSize st)
                 ++ events (findQEMUBinary (Arch m) st1))
              (final (findQEMUBinary (Arch m) st1))).
  { unfold Create, bind, getSelf. cbn [value final events app].
    rewrite Hud. fold st1. rewrite Hres. cbn [value final events ret].
    now rewrite app_nil_r. }
  rewrite Hcreate. cbn [value final events]. repeat split.
  - rewrite filter_app.
    rewrite (filter_other_kind _ isLaunch _ He1) by (now intros []).
    rewrite (filter_other_kind _ isLaunch _ He2) by (now intros []).
    reflexivity.
  - now rewrite Hs2.
  - destruct (Hfind st1) as [(k & p & evs & _ & _ & _ & Hv) | (evs & r & Hf & He & Hv)].
    + rewrite Hv in Hcause. discriminate.
    + rewrite Hv in Hcause. destruct r as [p | lookErr]; [discriminate|].
      injection Hcause as <-.
      exists evs, lookErr. repeat split; try assumption.
      cbn [errorString]. subst notFound. now rewrite append_assoc.
Qed.

End SearchClaims.

(* ================================================================== *)
(** * The monitor commands *)

Section MonitorClaims.

Variable H : Host.

Lemma drain_reads (fuel : nat) (conn : Conn) (st : Store H) :
  forallb isRead (events (drain fuel conn st)) = true.
Proof.
  revert st. induction fuel as [|fuel IH]; intros st; [reflexivity|].
  cbn [drain]. unfold bind, call. cbn [value final events app forallb isRead].
  destruct (snd (fst (conn_Read H conn 1024 (world st)))).
  - reflexivity.
  - apply IH.
Qed.

(** The drain loop ends at the first read that fails. *)
Lemma drain_ends (k : nat) (conn : Conn) :
  forall (fuel : nat) (st : Store H),
    readsUntilError H k conn (world st) -> k < fuel ->
    value (drain fuel conn st) = true.
Proof.
  induction k as [|k IH]; intros fuel st Hr Hk;
    (destruct fuel as [|fuel]; [lia|]);
    cbn [drain]; unfold bind, call; cbn [value final events];
    cbn [readsUntilError] in Hr.
  - destruct (snd (fst (conn_Read H conn 1024 (world st)))); [reflexivity|].
    now contradiction Hr.
  - destruct Hr as [Hok Hr]. rewrite Hok.
    apply IH; [exact Hr | lia].
Qed.

(** What the shared block emits and returns, by the answer to its
    write. *)
Lemma sendAndDrain_shape (fuel : nat) (conn : Conn) (cmd : string)
    (st : Store H) :
  let w := fst (conn_Write H conn cmd (world st)) in
  let o := sendAndDrain fuel conn cmd st in
  match snd w with
  | Some e => events o = [EvWrite conn cmd w] /\ value o = Some (Some e)
  | None =>
      if Z.eqb (fst w) (Z.of_nat (String.length cmd))
      then exists d reads,
          events o = EvWrite conn cmd w
                       :: EvSetReadDeadline conn time_Second d :: reads /\
          forallb isRead reads = true /\
          match d with
          | Some e => reads = [] /\ value o = Some (Some e)
          | None => value o = None \/ value o = Some None
          end
      else events o = [EvWrite conn cmd w] /\
           value o = Some (Some (shortWrite (fst w) (String.length cmd)))
  end.
Proof.
  intros w o. subst o. unfold sendAndDrain, sendLine, bind, call.
  cbn [value final events app]. fold w.
  destruct (snd w) as [e|]; [split; reflexivity|].
  destruct (Z.eqb (fst w) (Z.of_nat (String.length cmd)));
    cbn [negb value final events app ret]; [|split; reflexivity].
  match goal with
  | |- context [conn_SetReadDeadline H conn time_Second ?x] =>
      set (d := conn_SetReadDeadline H conn time_Second x)
  end.
  destruct (fst d) as [e|] eqn:Ed.
  - exists (Some e), []. cbn [value final events app ret].
    repeat split; reflexivity.
  - match goal with
    | |- context [drain fuel conn ?s] => set (dr := drain fuel conn s)
    end.
    exists None, (events dr). cbn [value final events app ret].
    split; [|split].
    + destruct (value dr); cbn [events ret]; now rewrite app_nil_r.
    + apply drain_reads.
    + destruct (value dr); cbn [value ret]; auto.
Qed.

Lemma In_reads_not_write (reads : list Event) (c : Conn) (data : string)
    (r : Z * option error) :
  forallb isRead reads = true -> ~ In (EvWrite c data r) reads.
Proof.
  intros Hall Hin. rewrite forallb_forall in Hall.
  specialize (Hall _ Hin). discriminate.
Qed.

(** A write event of the shared block is its own, and a count that
    differs from the length of the line ends the block there. *)
Lemma sendAndDrain_short (fuel : nat) (conn c : Conn) (cmd data : string)
    (n : Z) (werr : option error) (st : Store H) :
  n <> Z.of_nat (String.length data) ->
  In (EvWrite c data (n, werr)) (events (sendAndDrain fuel conn cmd st)) ->
  events (sendAndDrain fuel conn cmd st) = [EvWrite c data (n, werr)] /\
  value (sendAndDrain fuel conn cmd st) =
    Some (Some match werr with
               | Some e => e
               | None => shortWrite n (String.length data)
               end).
Proof.
  intros Hn Hin.
  pose proof (sendAndDrain_shape fuel conn cmd st) as Hs. cbv zeta in Hs.
  destruct (fst (conn_Write H conn cmd (world st))) as [n' werr'] eqn:Ew.
  cbn [fst snd] in Hs.
  destruct werr' as [e|].
  - destruct Hs as [He Hv]. rewrite He in Hin |- *.
    destruct Hin as [Hin | []]. injection Hin as <- <- <- <-.
    split; [reflexivity | exact Hv].
  - destruct (Z.eqb_spec n' (Z.of_nat (String.length cmd))) as [En | En].
    + destruct Hs as (d & reads & He & Hr & _). rewrite He in Hin.
      destruct Hin as [Hin | [Hin | Hin]].
      * injection Hin as <- <- <- <-. contradiction.
      * discriminate Hin.
      * now apply In_reads_not_write in Hin.
    + destruct Hs as [He Hv]. rewrite He in Hin |- *.
      destruct Hin as [Hin | []]. injection Hin as <- <- <- <-.
      split; [reflexivity | exact Hv].
Qed.

(** C6, as amended.  In both monitor commands, when the write reports a
    byte count that differs from the length of the line, the command
    fails and performs no read.  The error is the one the write returned
    when it returned one; when it returned none, the error is
    [didn't send the full command (<count> out of <length> bytes)]. *)
Theorem short_write_fails (st : Store H) (fuel : nat) (c : Conn)
    (data : string) (n : Z) (werr : option error) :
  let failure := match werr with
                 | Some e => e
                 | None => shortWrite n (String.length data)
                 end in
  n <> Z.of_nat (String.length data) ->
  (In (EvWrite c data (n, werr)) (events (Screenshot fuel st)) ->
   value (Screenshot fuel st) = Some ("", Some failure) /\
   filter isRead (events (Screenshot fuel st)) = []) /\
  (In (EvWrite c data (n, werr)) (events (DetachCD fuel st)) ->
   value (DetachCD fuel st) = Some (Some failure) /\
   filter isRead (events (DetachCD fuel st)) = []).
Proof.
  intros failure Hn. split.
  - unfold Screenshot, dialMonitor, screenshotFile, bind, call, getSelf.
    cbn [value final events app].
    match goal with
    | |- context [match fst ?x with _ => _ end] => destruct (fst x) as [conn | e]
    end; cbn [value final events app ret].
    2:{ intros [Hin | []]. discriminate Hin. }
    match goal with
    | |- context [match fst ?x with _ => _ end] => destruct (fst x) as [f | e]
    end; cbn [value final events app ret].
    2:{ intros [Hin | [Hin | [Hin | []]]]; discriminate Hin. }
    match goal with
    | |- context [sendAndDrain fuel conn ?l ?s] =>
        set (sd := sendAndDrain fuel conn l s);
        pose proof (@sendAndDrain_short fuel conn c l data n werr s Hn) as Hshort;
        fold sd in Hshort
    end.
    intros [Hin | [Hin | [Hin | [Hin | Hin]]]]; try discriminate Hin.
    rewrite <- app_assoc in Hin. apply in_app_or in Hin.
    destruct Hin as [Hin | Hin].
    + destruct (Hshort Hin) as [He Hv]. rewrite He, Hv.
      cbn. split; reflexivity.
    + exfalso. revert Hin. destruct (value sd) as [[e|]|]; cbn;
        intros [Hin | []]; discriminate Hin.
  - unfold DetachCD, dialMonitor, bind, call, getSelf.
    cbn [value final events app].
    match goal with
    | |- context [match fst ?x with _ => _ end] => destruct (fst x) as [conn | e]
    end; cbn [value final events app ret].
    2:{ intros [Hin | []]. discriminate Hin. }
    match goal with
    | |- context [sendAndDrain fuel conn ?l ?s] =>
        set (sd := sendAndDrain fuel conn l s);
        pose proof (@sendAndDrain_short fuel conn c l data n werr s Hn) as Hshort;
        fold sd in Hshort
    end.
    intros [Hin | Hin]; [discriminate Hin|].
    apply in_app_or in Hin. destruct Hin as [Hin | Hin].
    + destruct (Hshort Hin) as [He Hv]. rewrite He, Hv.
      cbn. split; reflexivity.
    + exfalso. destruct Hin as [Hin | []]. discriminate Hin.
Qed.

(** C7.  In both monitor commands, once the line is written in full and
    the read deadline is set, the command ends at the first read that
    returns an error, whatever the error, after any number [k] of reads
    that returned none, and it succeeds: [Screenshot] returns the name of
    its temporary file and no error, [DetachCD] returns no error.  A bound
    on the reads above [k] is enough. *)
Theorem drain_error_is_success (fuel k : nat) (conn : Conn) :
  k < fuel ->
  (forall (st : Store H) (f : File),
      let st1 := final (dialMonitor st) in
      let st2 := final (screenshotFile st1) in
      let st3 := final (sendLine conn (screendumpLine f) st2) in
      value (dialMonitor st) = inl conn ->
      value (screenshotFile st1) = inl f ->
      value (sendLine conn (screendumpLine f) st2) = None ->
      readsUntilError H k conn (world st3) ->
      value (Screenshot fuel st) = Some (Name f, None)) /\
  (forall st : Store H,
      let st1 := final (dialMonitor st) in
      let st2 := final (sendLine conn ejectLine st1) in
      value (dialMonitor st) = inl conn ->
      value (sendLine conn ejectLine st1) = None ->
      readsUntilError H k conn (world st2) ->
      value (DetachCD fuel st) = Some None).
Proof.
  intros Hk. split.
  - intros st f st1 st2 st3 Hdial Hfile Hsend Hreads.
    unfold Screenshot, bind. cbn [value final events].
    rewrite Hdial. cbn [value final events]. fold st1.
    rewrite Hfile.
    unfold sendAndDrain, bind. cbn [value final events]. fold st2.
    rewrite Hsend. cbn [value final events]. fold st3.
    rewrite (@drain_ends k conn fuel st3 Hreads Hk). reflexivity.
  - intros st st1 st2 Hdial Hsend Hreads.
    unfold DetachCD, bind. cbn [value final events].
    rewrite Hdial. cbn [value final events]. fold st1.
    unfold sendAndDrain, bind. cbn [value final events].
    rewrite Hsend. cbn [value final events]. fold st2.
    rewrite (@drain_ends k conn fuel st2 Hreads Hk). reflexivity.
Qed.

End MonitorClaims.

(* ================================================================== *)
(** * Paths *)

Section PathFacts.

Import GoPath.

Lemma join_cons (sep x y : string) (rest : list string) :
  Fmt.join sep (x :: y :: rest) = x +++ sep +++ Fmt.join sep (y :: rest).
Proof. reflexivity. Qed.

Lemma split_join (c : ascii) (elems : list string) :
  elems <> [] ->
  forallb (Fmt.lacks c) elems = true ->
  Fmt.split c (Fmt.join (String c "") elems) = elems.
Proof.
  induction elems as [|x rest IH]; [congruence|]. intros _ Hall.
  cbn [forallb] in Hall. apply andb_true_iff in Hall as [Hx Hrest].
  destruct rest as [|y rest].
  - cbn [Fmt.join]. now apply split_lacks.
  - rewrite join_cons. cbn [String.append].
    rewrite split_app by exact Hx.
    rewrite IH; [reflexivity | discriminate | exact Hrest].
Qed.

Lemma join_snoc (sep x : string) (elems : list string) :
  elems <> [] ->
  Fmt.join sep (elems ++ [x]) = Fmt.join sep elems +++ sep +++ x.
Proof.
  induction elems as [|a rest IH]; [congruence|]. intros _.
  destruct rest as [|b rest].
  - reflexivity.
  - cbn [app]. rewrite !join_cons.
    change (b :: rest ++ [x]) with ((b :: rest) ++ [x]).
    rewrite IH by discriminate.
    now rewrite !append_assoc.
Qed.

Lemma plainElem_lacks (e : string) :
  plainElem e = true -> Fmt.lacks "/" e = true.
Proof. unfold plainElem. intros Hp. now apply andb_true_iff in Hp as [_ Hp]. Qed.

Lemma cleanElems_plain (rooted : bool) (elems out : list string) :
  forallb plainElem elems = true ->
  cleanElems rooted out elems = List.rev out ++ elems.
Proof.
  revert out. induction elems as [|e rest IH]; intros out Hall.
  - cbn. now rewrite app_nil_r.
  - cbn [forallb] in Hall. apply andb_true_iff in Hall as [He Hrest].
    unfold plainElem in He.
    apply andb_true_iff in He as [He _].
    apply andb_true_iff in He as [He Hdd].
    apply andb_true_iff in He as [Hem Hd].
    apply negb_true_iff in Hem, Hd, Hdd.
    cbn [cleanElems]. rewrite Hem, Hd, Hdd. cbn [orb].
    rewrite IH by exact Hrest. cbn [List.rev].
    now rewrite <- app_assoc.
Qed.

Lemma join_plain_first (elems : list string) :
  elems <> [] -> forallb plainElem elems = true ->
  exists a s, Fmt.join "/" elems = String a s /\ Ascii.eqb a "/" = false.
Proof.
  destruct elems as [|e rest]; [congruence|]. intros _ Hall.
  cbn [forallb] in Hall. apply andb_true_iff in Hall as [He _].
  pose proof (plainElem_lacks _ He) as Hl.
  destruct e as [|a e].
  - discriminate He.
  - cbn [Fmt.lacks] in Hl. apply andb_true_iff in Hl as [Ha _].
    apply negb_true_iff in Ha.
    destruct rest; cbn [Fmt.join String.append]; eauto.
Qed.

(** A path of plain elements is clean already. *)
Lemma Clean_plain (rooted : bool) (elems : list string) :
  elems <> [] -> forallb plainElem elems = true ->
  Clean (plainPath rooted elems) = plainPath rooted elems.
Proof.
  intros Hne Hall.
  assert (Hl : forallb (Fmt.lacks "/") elems = true).
  { rewrite forallb_forall in Hall |- *. intros x Hx.
    now apply plainElem_lacks, Hall. }
  destruct rooted; unfold plainPath, Clean.
  - cbn [String.append isRooted]. rewrite Ascii.eqb_refl.
    cbn [Fmt.split]. rewrite Ascii.eqb_refl.
    rewrite (split_join "/" Hne Hl).
    cbn [cleanElems isEmpty String.eqb orb].
    rewrite cleanElems_plain by exact Hall. reflexivity.
  - cbn [String.append].
    destruct (join_plain_first Hne Hall) as (a & s & Ej & Ea).
    rewrite Ej. cbn [isRooted]. rewrite Ea. rewrite <- Ej.
    rewrite (split_join "/" Hne Hl).
    rewrite cleanElems_plain by exact Hall. cbn [List.rev app].
    destruct elems; [congruence | reflexivity].
Qed.

Lemma Join_plain (rooted : bool) (elems : list string) (name : string) :
  elems <> [] -> forallb plainElem elems = true -> plainElem name = true ->
  Join [plainPath rooted elems; name] = plainPath rooted elems +++ "/" +++ name.
Proof.
  intros Hne Hall Hname.
  assert (Hnz : isEmpty (plainPath rooted elems) = false).
  { unfold plainPath. destruct rooted; [reflexivity|].
    destruct (join_plain_first Hne Hall) as (a & s & -> & _). reflexivity. }
  assert (Hnn : isEmpty name = false).
  { destruct name; [discriminate Hname | reflexivity]. }
  unfold Join. cbn [filter]. rewrite Hnz, Hnn. cbn [negb Fmt.join].
  assert (E : plainPath rooted elems +++ "/" +++ name
              = plainPath rooted (elems ++ [name])).
  { unfold plainPath. rewrite join_snoc by exact Hne.
    now rewrite append_assoc. }
  rewrite E. apply Clean_plain.
  - now destruct elems.
  - rewrite forallb_app, Hall. cbn. now rewrite Hname.
Qed.

End PathFacts.

(** C5, as amended.  The path of the monitor socket is
    [path.Join(StateDir, "qemu-monitor.sock")], a function of the state
    directory alone; [Create] declares the monitor on it and both monitor
    commands dial it.  For a state directory made of plain elements it is
    [<state-dir>/qemu-monitor.sock]. *)
Theorem monitor_socket_path (H : Host) (st : Store H) :
  let q := self st in
  let sd := StateDir (machineConfig q) in
  monitorSockFile q = path_Join [sd; "qemu-monitor.sock"] /\
  nth_error (createOpts q) 7 =
    Some ("unix:" +++ monitorSockFile q +++ ",server,nowait") /\
  (forall fuel,
      hd_error (events (Screenshot fuel st)) =
        Some (EvDial "unix" (monitorSockFile q)
                (fst (net_Dial H "unix" (monitorSockFile q) (world st)))) /\
      hd_error (events (DetachCD fuel st)) =
        Some (EvDial "unix" (monitorSockFile q)
                (fst (net_Dial H "unix" (monitorSockFile q) (world st))))) /\
  (forall rooted elems,
      elems <> [] ->
      forallb GoPath.plainElem elems = true ->
      sd = GoPath.plainPath rooted elems ->
      monitorSockFile q = sd +++ "/qemu-monitor.sock").
Proof.
  intros q sd. split; [reflexivity|]. split; [|split].
  - unfold createOpts. cbv zeta.
    destruct (DisableDefaultNetworking (machineConfig q));
      destruct (String.eqb (CPUType (machineConfig q)) "");
      destruct (String.eqb (Arch (machineConfig q)) "aarch64");
      reflexivity.
  - intros fuel. split; reflexivity.
  - intros rooted elems Hne Hall Hsd.
    unfold monitorSockFile, path_Join. fold q. fold sd. rewrite Hsd.
    now apply Join_plain.
Qed.

(* ================================================================== *)
(** * Teardown *)

Section Teardown.

Variable H : Host.

(** [Stop] is the process manager's [Stop] on a fresh handle for the state
    directory: its answer is returned as it is, and the receiver stays. *)
Lemma Stop_delegates (st : Store H) :
  let p := process_New [WithStateDir (StateDir (machineConfig (self st)))] in
  Stop st =
    mkOutcome (fst (process_Stop H p (world st)))
              [EvStop p (fst (process_Stop H p (world st)))]
              (mkStore H (self st) (snd (process_Stop H p (world st)))).
Proof. reflexivity. Qed.

End Teardown.

(* ================================================================== *)
(** * The properties at concrete configurations *)

(** C4, as stated, fails as soon as there is a drive: the drive tokens
    follow the directive in the launched argument list. *)
Lemma boot_directive_counterexample :
  let st := Sim.start (Sim.withDrives ["a.img"] Sim.bare) Sim.calm in
  let o := Create Sim.defaultSize (mkCtx 0) st in
  map (fun p => skipn 13 (procArgs p)) (Sim.launched o) =
    [["-boot"; "order=dc,menu=on";
      "-drive"; "if=none,id=drv0,file=a.img";
      "-device"; "virtio-blk-pci,drive=drv0,bootindex=1"]].
Proof. vm_compute. reflexivity. Qed.

Lemma boot_directive_witness :
  let st := Sim.start (Sim.withDrives ["a.img"] Sim.bare) Sim.calm in
  let p := launchHandle (self st) "/usr/bin/qemu-system-x86_64" ["a.img"] in
  exists pre ud,
    createOpts (self st) = pre ++ ["-boot"; "order=dc,menu=on"] /\
    value (provisionDrives Sim.defaultSize st) = inl ud /\
    procArgs p =
      pre ++ ["-boot"; "order=dc,menu=on"]
        ++ genDrives ud (machineConfig (self st)) /\
    (genDrives ud (machineConfig (self st)) = [] <->
     ud = [] /\ ISO (machineConfig (self st)) = "" /\
     DataSource (machineConfig (self st)) = "").
Proof.
  intros st p.
  apply (@boot_directive_ends_options Sim.host Sim.defaultSize st (mkCtx 0)
           p None).
  do 4 right. left. reflexivity.
Defined.

(** C5, as stated, fails: the file is [qemu-monitor.sock], not
    [monitor.sock]. *)
Lemma monitor_socket_counterexample :
  let q := mkQEMU Sim.bare None in
  StateDir (machineConfig q) = "/tmp/vm" /\
  monitorSockFile q = "/tmp/vm/qemu-monitor.sock" /\
  monitorSockFile q <> StateDir (machineConfig q) +++ "/monitor.sock".
Proof. vm_compute. repeat split. discriminate. Qed.

Lemma monitor_socket_witness :
  monitorSockFile (mkQEMU Sim.bare None) = "/tmp/vm/qemu-monitor.sock".
Proof.
  refine (proj2 (proj2 (proj2 (monitor_socket_path (Sim.start Sim.bare Sim.calm))))
            true ["tmp"; "vm"] _ eq_refl eq_refl).
  discriminate.
Defined.

(** C6, as stated, fails when the short write comes with an error of its
    own, as a writer must report it: the command returns that error, which
    reports no byte count. *)
Lemma short_write_counterexample :
  let pipe := HostError "write: broken pipe" in
  let w := Sim.mkW [] None None None (Some (3%Z, Some pipe)) [] [] in
  let o := DetachCD 5 (Sim.start Sim.bare w) in
  events o = [EvDial "unix" "/tmp/vm/qemu-monitor.sock" (inl (mkConn 3));
              EvWrite (mkConn 3) ejectLine (3%Z, Some pipe);
              EvConnClose (mkConn 3) None] /\
  String.length ejectLine = 19 /\
  value o = Some (Some pipe) /\
  errorString pipe <> errorString (shortWrite 3 19) /\
  Fmt.contains (errorString pipe) "19" = false.
Proof. vm_compute. repeat split. discriminate. Qed.

Lemma short_write_witness :
  let w := Sim.mkW [] None None None (Some (3%Z, None)) [] [] in
  let o := DetachCD 5 (Sim.start Sim.bare w) in
  value o = Some (Some (shortWrite 3 19)) /\ filter isRead (events o) = [].
Proof.
  intros w o.
  refine (proj2 (@short_write_fails Sim.host (Sim.start Sim.bare w) 5
                   (mkConn 3) ejectLine 3%Z None _) _).
  - vm_compute. discriminate.
  - right. left. reflexivity.
Defined.

Lemma drain_error_witness :
  let w := Sim.mkW [] None None None None [10%Z; 20%Z] [] in
  value (Screenshot 5 (Sim.start Sim.bare w)) =
    Some ("/tmp/qemu-screenshot-1.png", None) /\
  value (DetachCD 5 (Sim.start Sim.bare w)) = Some None.
Proof.
  intros w.
  assert (Hk : 2 < 5) by lia.
  destruct (@drain_error_is_success Sim.host 5 2 (mkConn 3) Hk) as [Hs Hd].
  split.
  - refine (Hs (Sim.start Sim.bare w) (mkFile "/tmp/qemu-screenshot-1.png")
               eq_refl eq_refl eq_refl _).
    vm_compute. repeat split; discriminate.
  - refine (Hd (Sim.start Sim.bare w) eq_refl eq_refl _).
    vm_compute. repeat split; discriminate.
Defined.

(* ================================================================== *)
(** * More on the drive tokens *)

Section DriveTokens.

Lemma genDrives_shape (ud : list string) (m : MachineConfig) :
  genDrives ud m =
    userTokens 0 ud ++ mediaPart (length ud) (ISO m) (DataSource m).
Proof.
  unfold genDrives, mediaPart, isSet, cdrom, addSCSIIfNeeded.
  rewrite userDisks_tokens by reflexivity.
  destruct (negb (String.eqb (ISO m) ""));
    destruct (negb (String.eqb (DataSource m) ""));
    cbn [allDrives scsiAdded nextId negb Nat.add app];
    rewrite <- ?app_assoc; try reflexivity.
  now rewrite app_nil_r.
Qed.

(** The controller is declared lazily and once: it is in the drive tokens
    exactly once when a primary or a secondary medium is configured, and
    not at all otherwise, whatever the persistent drives are. *)
Theorem controller_once_iff_media (ud : list string) (m : MachineConfig) :
  count_occ string_dec (genDrives ud m) scsiController =
    if isSet (ISO m) || isSet (DataSource m) then 1 else 0.
Proof.
  rewrite genDrives_shape, count_occ_app.
  rewrite (proj1 (count_occ_not_In string_dec _ _)
             (userTokens_no_controller ud 0)).
  unfold mediaPart, scsiController, cdDriveToken, cdDeviceToken.
  destruct (isSet (ISO m)); destruct (isSet (DataSource m));
    cbn [orb app count_occ Nat.add];
    repeat match goal with
           | |- context [string_dec ?a ?b] =>
               destruct (string_dec a b) as [E | E];
               [try discriminate E | try (exfalso; apply E; reflexivity)]
           end;
    reflexivity.
Qed.

Lemma pairs_userTokens (ds : list string) (k : nat) (rest : list string) :
  QemuLine.pairs (userTokens k ds ++ rest) =
    flat_map (fun kd => [("-drive", driveToken (fst kd) (snd kd));
                         ("-device", deviceToken (fst kd) (fst kd + 1))])
             (combine (seq k (length ds)) ds)
      ++ QemuLine.pairs rest.
Proof.
  revert k. induction ds as [|d ds IH]; intros k; [reflexivity|].
  cbn [userTokens app QemuLine.pairs length seq combine flat_map fst snd].
  now rewrite IH.
Qed.

Lemma valuesOf_device_userTokens (ds : list string) (k : nat)
    (rest : list string) :
  QemuLine.valuesOf "-device" (userTokens k ds ++ rest) =
    map (fun i => deviceToken i (i + 1)) (seq k (length ds))
      ++ QemuLine.valuesOf "-device" rest.
Proof.
  unfold QemuLine.valuesOf. rewrite pairs_userTokens, filter_app, map_app.
  f_equal. clear rest. revert k.
  induction ds as [|d ds IH]; intros k; [reflexivity|].
  cbn [length seq combine flat_map app filter fst snd map String.eqb
       Ascii.eqb Bool.eqb].
  now rewrite IH.
Qed.

Lemma valuesOf_drive_userTokens (ds : list string) (k : nat)
    (rest : list string) :
  QemuLine.valuesOf "-drive" (userTokens k ds ++ rest) =
    map (fun kd => driveToken (fst kd) (snd kd)) (combine (seq k (length ds)) ds)
      ++ QemuLine.valuesOf "-drive" rest.
Proof.
  unfold QemuLine.valuesOf. rewrite pairs_userTokens, filter_app, map_app.
  f_equal. clear rest. revert k.
  induction ds as [|d ds IH]; intros k; [reflexivity|].
  cbn [length seq combine flat_map app filter fst snd map String.eqb
       Ascii.eqb Bool.eqb].
  now rewrite IH.
Qed.

(** The boot order the hypervisor is given: read off the [-device] values
    of the drive tokens, the priorities are [1..N] for the [N] drives in
    their order, then none for the controller (when there is a medium), 50
    for the primary medium and 60 for the secondary one. *)
Theorem boot_priorities_in_order (ud : list string) (m : MachineConfig) :
  map QemuOpt.bootindexOf (QemuLine.valuesOf "-device" (genDrives ud m)) =
    map Some (seq 1 (length ud))
      ++ (if isSet (ISO m) || isSet (DataSource m) then [None] else [])
      ++ (if isSet (ISO m) then [Some 50] else [])
      ++ (if isSet (DataSource m) then [Some 60] else []).
Proof.
  rewrite genDrives_shape, valuesOf_device_userTokens, map_app.
  f_equal.
  - rewrite <- seq_shift, !map_map. apply map_ext. intros i.
    rewrite bootindexOf_deviceToken. f_equal. lia.
  - unfold mediaPart.
    pose proof (bootindexOf_cdDeviceToken (length ud) 50) as H50.
    pose proof (bootindexOf_cdDeviceToken (S (length ud)) 60) as H60s.
    pose proof (bootindexOf_cdDeviceToken (length ud) 60) as H60.
    change (Fmt.itoa 50) with "50" in H50.
    change (Fmt.itoa 60) with "60" in H60s, H60.
    destruct (isSet (ISO m)); destruct (isSet (DataSource m));
      cbn [orb app QemuLine.valuesOf QemuLine.pairs filter fst snd map
           String.eqb Ascii.eqb Bool.eqb];
      rewrite ?H50, ?H60s, ?H60; reflexivity.
Qed.

Lemma fieldValue_id_after_if (k : nat) (rest : string) :
  QemuOpt.fieldValue "id"
    ("if=none,id=drv" +++ Fmt.itoa k +++ String "," rest) =
    Some ("drv" +++ Fmt.itoa k).
Proof.
  unfold QemuOpt.fieldValue.
  change ("if=none,id=drv" +++ Fmt.itoa k +++ String "," rest)
    with ("if=none" +++ String "," ("id=drv" +++ Fmt.itoa k +++ String "," rest)).
  rewrite split_app by reflexivity.
  rewrite <- append_assoc.
  rewrite split_app.
  2:{ rewrite lacks_app, itoa_lacks_comma. reflexivity. }
  reflexivity.
Qed.

Lemma fieldValue_id_driveToken (k : nat) (d : string) :
  QemuOpt.fieldValue "id" (driveToken k d) = Some ("drv" +++ Fmt.itoa k).
Proof. exact (fieldValue_id_after_if k ("file=" +++ d)). Qed.

Lemma fieldValue_id_cdDriveToken (k : nat) (f : string) :
  QemuOpt.fieldValue "id" (cdDriveToken k f) = Some ("drv" +++ Fmt.itoa k).
Proof. exact (fieldValue_id_after_if k ("media=cdrom,file=" +++ f)). Qed.

Lemma fieldValue_drive_deviceToken (k b : nat) :
  QemuOpt.fieldValue "drive" (deviceToken k b) = Some ("drv" +++ Fmt.itoa k).
Proof.
  unfold QemuOpt.fieldValue. rewrite deviceToken_fields. reflexivity.
Qed.

Lemma fieldValue_drive_cdDeviceToken (k : nat) (b : string) :
  QemuOpt.fieldValue "drive" (cdDeviceToken k b) = Some ("drv" +++ Fmt.itoa k).
Proof.
  unfold QemuOpt.fieldValue, cdDeviceToken.
  change ("scsi-cd,drive=drv" +++ Fmt.itoa k +++ ",bus=scsi0.0,bootindex=" +++ b)
    with ("scsi-cd" +++
            String "," ("drive=drv" +++ Fmt.itoa k +++
              String "," ("bus=scsi0.0,bootindex=" +++ b))).
  rewrite split_app by reflexivity.
  rewrite <- append_assoc.
  rewrite split_app.
  2:{ rewrite lacks_app, itoa_lacks_comma. reflexivity. }
  reflexivity.
Qed.

Lemma itoa_injective (a b : nat) : Fmt.itoa a = Fmt.itoa b -> a = b.
Proof.
  intros E. pose proof (atoi_itoa a) as Ha. rewrite E, atoi_itoa in Ha.
  congruence.
Qed.

Lemma driveIds_NoDup (n : nat) : NoDup (driveIds n).
Proof.
  unfold driveIds. generalize 0 as k.
  induction n as [|n IH]; intros k; cbn [seq map]; constructor.
  - rewrite in_map_iff. intros (j & Ej & Hj).
    apply in_seq in Hj. injection Ej as Ej.
    apply itoa_injective in Ej. lia.
  - apply IH.
Qed.

Lemma driveIds_app (n c : nat) :
  driveIds (n + c) =
    driveIds n ++ map (fun k => "drv" +++ Fmt.itoa k) (seq n c).
Proof. unfold driveIds. now rewrite seq_app, map_app. Qed.

Lemma user_drive_ids (ds : list string) (k : nat) :
  map (QemuOpt.fieldValue "id")
      (map (fun kd => driveToken (fst kd) (snd kd))
           (combine (seq k (length ds)) ds)) =
    map (fun i => Some ("drv" +++ Fmt.itoa i)) (seq k (length ds)).
Proof.
  revert k. induction ds as [|d ds IH]; intros k; [reflexivity|].
  cbn [length seq combine map fst snd].
  now rewrite fieldValue_id_driveToken, IH.
Qed.

Lemma user_device_drives (n k : nat) :
  QemuLine.properties "drive"
    (map (fun i => deviceToken i (i + 1)) (seq k n)) =
    map (fun i => "drv" +++ Fmt.itoa i) (seq k n).
Proof.
  revert k. induction n as [|n IH]; intros k; [reflexivity|].
  cbn [seq map]. unfold QemuLine.properties in *. cbn [flat_map].
  now rewrite fieldValue_drive_deviceToken, IH.
Qed.

(** Drive identifiers: the [-drive] values of the drive tokens declare
    the identifiers [drv0], [drv1], ... in order, one per persistent drive
    and per medium, without gap or repetition, and the [-device] values
    that attach a drive name the same identifiers in the same order; the
    file names of the drives have no part in this. *)
Theorem drive_ids_distinct_and_attached (ud : list string)
    (m : MachineConfig) :
  let toks := genDrives ud m in
  let ids := driveIds (length ud + mediaCount m) in
  map (QemuOpt.fieldValue "id") (QemuLine.valuesOf "-drive" toks) =
    map Some ids /\
  QemuLine.properties "drive" (QemuLine.valuesOf "-device" toks) = ids /\
  NoDup ids.
Proof.
  intros toks ids. subst toks ids.
  rewrite genDrives_shape, valuesOf_drive_userTokens,
    valuesOf_device_userTokens, driveIds_app.
  split; [|split].
  - rewrite !map_app, user_drive_ids.
    unfold driveIds. rewrite map_map. f_equal.
    unfold mediaPart, mediaCount.
    destruct (isSet (ISO m)); destruct (isSet (DataSource m));
      cbn [app QemuLine.valuesOf QemuLine.pairs filter fst snd map
           String.eqb Ascii.eqb Bool.eqb Nat.add seq];
      rewrite ?fieldValue_id_cdDriveToken; reflexivity.
  - unfold QemuLine.properties. rewrite flat_map_app.
    fold (QemuLine.properties "drive"
            (map (fun i => deviceToken i (i + 1)) (seq 0 (length ud)))).
    rewrite user_device_drives. unfold driveIds. f_equal.
    unfold mediaPart, mediaCount.
    destruct (isSet (ISO m)); destruct (isSet (DataSource m));
      cbn [app QemuLine.valuesOf QemuLine.pairs filter fst snd map flat_map
           String.eqb Ascii.eqb Bool.eqb Nat.add seq];
      rewrite ?fieldValue_drive_cdDeviceToken;
      reflexivity.
  - rewrite <- driveIds_app. apply driveIds_NoDup.
Qed.

End DriveTokens.

(* ================================================================== *)
(** * More on [Create] *)

Section CreateExtras.

Variable H : Host.
Variable DefaultDriveSize : string.

(** [Create], phase by phase. *)
Lemma Create_outcome (st : Store H) (ctx : Ctx) :
  let m := machineConfig (self st) in
  let o1 := provisionDrives DefaultDriveSize st in
  match value o1 with
  | inr e =>
      Create DefaultDriveSize ctx st =
        mkOutcome (ctx, Some e) (events o1) (final o1)
  | inl ud =>
      let o2 := resolveProcess (final o1) in
      match value o2 with
      | inr e =>
          Create DefaultDriveSize ctx st =
            mkOutcome (ctx, Some e) (events o1 ++ events o2) (final o2)
      | inl name =>
          let p := launchHandle (self st) name ud in
          let mon := pkg_monitor H ctx p (OnFailure m) (world (final o2)) in
          let run := process_Run H p (snd mon) in
          Create DefaultDriveSize ctx st =
            mkOutcome (fst mon, fst run)
              (events o1 ++ events o2 ++
                 [EvMonitor ctx p (OnFailure m) (fst mon); EvRun p (fst run)])
              (mkStore H (mkQEMU m (Some p)) (snd run))
      end
  end.
Proof.
  intros m o1. subst o1.
  unfold Create, bind, getSelf. cbn [value final events app].
  destruct (value (provisionDrives DefaultDriveSize st)) as [ud | e].
  - cbv zeta.
    destruct (value (resolveProcess
                       (final (provisionDrives DefaultDriveSize st))))
      as [name | e].
    + unfold call, putSelf, ret. cbn [value final events app self world].
      reflexivity.
    + cbn [value final events ret]. now rewrite !app_nil_r.
  - cbn [value final events ret]. now rewrite app_nil_r.
Qed.

Lemma filter_same_kind (P Q : Event -> bool) (l : list Event) :
  forallb P l = true ->
  (forall e, P e = true -> Q e = true) ->
  filter Q l = l.
Proof.
  intros Hall Himp. induction l as [|e l IH]; [reflexivity|].
  cbn in Hall. apply andb_true_iff in Hall as [He Hl].
  cbn. rewrite (Himp e He). now rewrite IH.
Qed.

(** [Create] either stops before anything is launched, or launches one
    process.  In the first case it returns the context it was given with
    an error, and the receiver is as before.  In the second case its last
    two requests are the failure monitor and then the run of the same
    process, nothing was launched before them, the result is the
    monitor's context with the error of the run as it is, and the
    receiver records the process, also when the run failed.  In both
    cases the configuration of the receiver is unchanged. *)
Theorem Create_launches_once_or_nothing (st : Store H) (ctx : Ctx) :
  let m := machineConfig (self st) in
  let o := Create DefaultDriveSize ctx st in
  machineConfig (self (final o)) = m /\
  ((exists e,
       value o = (ctx, Some e) /\
       filter isLaunch (events o) = [] /\
       self (final o) = self st) \/
   (exists p newCtx err pre,
       events o = pre ++ [EvMonitor ctx p (OnFailure m) newCtx; EvRun p err] /\
       filter isLaunch pre = [] /\
       value o = (newCtx, err) /\
       process (self (final o)) = Some p /\
       procStateDir p = StateDir m)).
Proof.
  intros m o. subst o.
  pose proof (Create_outcome st ctx) as Ho. cbv zeta in Ho.
  destruct (quiet_provisionDrives DefaultDriveSize st) as [Hs1 He1].
  destruct (value (provisionDrives DefaultDriveSize st)) as [ud | e].
  - destruct (quiet_resolveProcess
                (final (provisionDrives DefaultDriveSize st))) as [Hs2 He2].
    destruct (value (resolveProcess
                       (final (provisionDrives DefaultDriveSize st))))
      as [name | e]; rewrite Ho; cbn [value final events self].
    + split; [reflexivity|]. right.
      eexists _, _, _, _. rewrite app_assoc.
      split; [reflexivity|]. split; [|repeat split].
      rewrite filter_app.
      rewrite (filter_other_kind _ isLaunch _ He1) by (now intros []).
      rewrite (filter_other_kind _ isLaunch _ He2) by (now intros []).
      reflexivity.
    + split; [now rewrite Hs2, Hs1|]. left. exists e.
      split; [reflexivity|]. split; [|now rewrite Hs2, Hs1].
      rewrite filter_app.
      rewrite (filter_other_kind _ isLaunch _ He1) by (now intros []).
      rewrite (filter_other_kind _ isLaunch _ He2) by (now intros []).
      reflexivity.
  - rewrite Ho. cbn [value final events self].
    split; [now rewrite Hs1|]. left. exists e.
    split; [reflexivity|]. split; [|exact Hs1].
    now rewrite (filter_other_kind _ isLaunch _ He1) by (now intros []).
Qed.

(** Drives that are configured are never provisioned: when automatic
    drive setup is off, or a drive is configured, [Create] makes no disk
    request at all (no directory is made, no image command is run). *)
Theorem configured_drives_not_provisioned (st : Store H) (ctx : Ctx) :
  let m := machineConfig (self st) in
  AutoDriveSetup m = false \/ Drives m <> [] ->
  filter isDisk (events (Create DefaultDriveSize ctx st)) = [].
Proof.
  intros m Hconf.
  rewrite Create_disk_events.
  now rewrite (provisionDrives_configured DefaultDriveSize st Hconf).
Qed.

(** A process override is used as it is: with [Process] set, [Create]
    asks for no file and looks nothing up in [PATH], and a process it
    launches has this very name. *)
Theorem process_override_skips_search (st : Store H) (ctx : Ctx) :
  let m := machineConfig (self st) in
  Process m <> "" ->
  filter isSearch (events (Create DefaultDriveSize ctx st)) = [] /\
  (forall p err,
      In (EvRun p err) (events (Create DefaultDriveSize ctx st)) ->
      procName p = Process m).
Proof.
  intros m Hproc.
  pose proof (Create_outcome st ctx) as Ho. cbv zeta in Ho.
  destruct (quiet_provisionDrives DefaultDriveSize st) as [Hs1 He1].
  assert (Hres : resolveProcess (final (provisionDrives DefaultDriveSize st)) =
                 mkOutcome (inl (Process m)) []
                           (final (provisionDrives DefaultDriveSize st))).
  { unfold resolveProcess, bind, getSelf. cbn [value final events app].
    rewrite Hs1. fold m. apply String.eqb_neq in Hproc. rewrite Hproc.
    reflexivity. }
  rewrite Hres in Ho. cbn [value final events] in Ho.
  destruct (value (provisionDrives DefaultDriveSize st)) as [ud | e];
    rewrite Ho; cbn [events].
  - split.
    + rewrite filter_app.
      rewrite (filter_other_kind _ isSearch _ He1) by (now intros []).
      reflexivity.
    + intros p err Hin. apply in_app_or in Hin as [Hin | Hin].
      * apply (forallb_In_false _ isLaunch _ _ He1) in Hin; [discriminate|].
        now destruct (EvRun p err).
      * cbn in Hin. destruct Hin as [Hin | [Hin | []]]; [discriminate|].
        injection Hin as <- _. reflexivity.
  - split.
    + now rewrite (filter_other_kind _ isSearch _ He1) by (now intros []).
    + intros p err Hin.
      apply (forallb_In_false _ isLaunch _ _ He1) in Hin; [discriminate|].
      now destruct (EvRun p err).
Qed.

End CreateExtras.

(* ================================================================== *)
(** * More on provisioning *)

Section ProvisionExtras.

Variable H : Host.
Variable DefaultDriveSize : string.

(** [CreateDisk] makes the state directory and then runs one image
    command.  When the directory cannot be made, its error is returned as
    it is and no command is run; when the command fails, the error reads
    [<output> : <cause>]; otherwise there is no error.  The receiver is
    not changed. *)
Theorem CreateDisk_outcome (diskname size : string) (st : Store H) :
  let dir := StateDir (machineConfig (self st)) in
  let command := "qemu-img create -f qcow2 "
                   +++ filepath_Join [dir; diskname] +++ " " +++ size in
  let mk := os_MkdirAll H dir os_ModePerm (world st) in
  let sh := utils_SH H command (snd mk) in
  let o := CreateDisk diskname size st in
  self (final o) = self st /\
  match fst mk with
  | Some e =>
      value o = Some e /\ events o = [EvMkdirAll dir os_ModePerm (Some e)] /\
      world (final o) = snd mk
  | None =>
      events o = [EvMkdirAll dir os_ModePerm None; EvSH command (fst sh)] /\
      world (final o) = snd sh /\
      match snd (fst sh) with
      | Some e =>
          exists wrapped,
            value o = Some wrapped /\
            errorString wrapped = fst (fst sh) +++ " : " +++ errorString e
      | None => value o = None
      end
  end.
Proof.
  intros dir command mk sh o. subst o.
  unfold CreateDisk, bind, getSelf, call. cbn [value final events app].
  fold dir. fold mk.
  destruct (fst mk) as [e|]; cbn [value final events app ret self world].
  - repeat split; reflexivity.
  - fold command. fold sh.
    destruct (snd (fst sh)) as [e|]; cbn [value final events app ret self world].
    + repeat split; try reflexivity.
      eexists. split; [reflexivity|]. cbn [errorString].
      now rewrite append_assoc.
    + repeat split; reflexivity.
Qed.

Lemma shCommands_app (a b : list Event) :
  shCommands (a ++ b) = shCommands a ++ shCommands b.
Proof. unfold shCommands. apply flat_map_app. Qed.

Lemma imageCommands_cons (m : MachineConfig) (i : nat) (s : string)
    (rest : list string) :
  imageCommands m i (s :: rest) =
    ("qemu-img create -f qcow2 " +++ imageName m i +++ " " +++ s)
      :: imageCommands m (S i) rest.
Proof. reflexivity. Qed.

Lemma provision_step (i : nat) (s : string) (rest ud : list string)
    (st : Store H) :
  let m := machineConfig (self st) in
  let c := CreateDisk (ID m +++ "-" +++ Fmt.itoa i +++ ".img") s st in
  provision i (s :: rest) ud st =
    match value c with
    | Some e =>
        mkOutcome (inr (Wrapf ("creating disk with size " +++ s +++ ": ") e))
                  (events c) (final c)
    | None =>
        let o := provision (S i) rest (ud ++ [imageName m i]) (final c) in
        mkOutcome (value o) (events c ++ events o) (final o)
    end.
Proof.
  intros m c. subst c. cbn [provision]. unfold bind, getSelf.
  cbn [value final events app]. fold m.
  destruct (value (CreateDisk (ID m +++ "-" +++ Fmt.itoa i +++ ".img") s st)).
  - cbn [value final events ret]. now rewrite app_nil_r.
  - reflexivity.
Qed.

(** The loop over the sizes: it ends with all images, or at the first
    image that could not be made. *)
Lemma provision_cases (sizes : list string) :
  forall (i : nat) (ud : list string) (st : Store H),
    let m := machineConfig (self st) in
    let o := provision i sizes ud st in
    match value o with
    | inl ud' =>
        ud' = ud ++ imageNames m i (length sizes) /\
        shCommands (events o) = imageCommands m i sizes
    | inr e =>
        exists j s cause,
          nth_error sizes j = Some s /\
          e = Wrapf ("creating disk with size " +++ s +++ ": ") cause /\
          (shCommands (events o) = imageCommands m i (firstn j sizes) \/
           shCommands (events o) = imageCommands m i (firstn (S j) sizes))
    end.
Proof.
  induction sizes as [|s rest IH]; intros i ud st m o; subst o.
  - cbn. split; [now rewrite app_nil_r | reflexivity].
  - rewrite provision_step. cbv zeta. fold m.
    pose proof (CreateDisk_outcome
                  (ID m +++ "-" +++ Fmt.itoa i +++ ".img") s st) as Hc.
    cbv zeta in Hc. fold m in Hc. destruct Hc as [Hself Hc].
    fold (imageName m i) in Hc.
    set (c := CreateDisk (ID m +++ "-" +++ Fmt.itoa i +++ ".img") s st) in *.
    destruct (fst (os_MkdirAll H (StateDir m) os_ModePerm (world st)))
      as [e|].
    + destruct Hc as (Hv & He & _). rewrite Hv, He.
      cbn [value events].
      exists 0, s, e. split; [reflexivity|]. split; [reflexivity|].
      left. reflexivity.
    + destruct Hc as (He & _ & Hv).
      match type of Hv with
      | match ?x with _ => _ end => destruct x as [e|]
      end.
      * destruct Hv as (wrapped & Hv & _). rewrite Hv, He.
        cbn [value events].
        exists 0, s, wrapped. split; [reflexivity|]. split; [reflexivity|].
        right. cbn [firstn]. rewrite imageCommands_cons. reflexivity.
      * rewrite Hv. cbn [value events].
        specialize (IH (S i) (ud ++ [imageName m i]) (final c)).
        cbv zeta in IH. rewrite Hself in IH. fold m in IH.
        rewrite shCommands_app, He.
        destruct (value (provision (S i) rest (ud ++ [imageName m i])
                           (final c))) as [ud' | e].
        -- destruct IH as [Hud Hsh]. split.
           ++ rewrite Hud, <- app_assoc. reflexivity.
           ++ rewrite Hsh, imageCommands_cons. reflexivity.
        -- destruct IH as (j & s' & cause & Hn & He' & Hsh).
           exists (S j), s', cause. split; [exact Hn|]. split; [exact He'|].
           cbn [firstn]. rewrite !imageCommands_cons.
           destruct Hsh as [Hsh | Hsh]; rewrite Hsh; auto.
Qed.

Lemma provisionDrives_unfold (st : Store H) :
  let m := machineConfig (self st) in
  provisionDrives DefaultDriveSize st =
    if AutoDriveSetup m && Nat.eqb (length (Drives m)) 0
    then provision 0 (driveSizes DefaultDriveSize m) (Drives m) st
    else mkOutcome (inl (Drives m)) [] st.
Proof.
  intros m. unfold provisionDrives, bind, getSelf.
  cbn [value final events app]. fold m.
  destruct (AutoDriveSetup m && Nat.eqb (length (Drives m)) 0).
  - now destruct (provision 0 (driveSizes DefaultDriveSize m) (Drives m) st).
  - reflexivity.
Qed.

Lemma shCommands_disk (l : list Event) :
  shCommands (filter isDisk l) = shCommands l.
Proof.
  induction l as [|e l IH]; [reflexivity|].
  destruct e; cbn [filter isDisk]; try exact IH;
    unfold shCommands in *; cbn [flat_map]; now rewrite IH.
Qed.

Lemma driveSizes_length (m : MachineConfig) :
  length (driveSizes DefaultDriveSize m) = Nat.max 1 (length (DriveSizes m)).
Proof.
  unfold driveSizes. destruct (DriveSizes m) as [|s rest]; [reflexivity|].
  cbn [map length]. rewrite length_map. lia.
Qed.

(** Automatic provisioning, for any list of sizes.  With automatic drive
    setup and no drive configured, the number of images is the number of
    configured sizes, and one when none is configured.  A process that
    [Create] launches runs on exactly the images [<id>-0.img],
    [<id>-1.img], ... under the state directory, in this order, and the
    shell commands of [Create] are the image commands for them, each with
    its size, in the same order. *)
Theorem auto_provisioning_every_size (st : Store H) (ctx : Ctx) :
  let m := machineConfig (self st) in
  let sizes := driveSizes DefaultDriveSize m in
  let o := Create DefaultDriveSize ctx st in
  AutoDriveSetup m = true ->
  Drives m = [] ->
  length sizes = Nat.max 1 (length (DriveSizes m)) /\
  (forall p err,
      In (EvRun p err) (events o) ->
      procArgs p =
        createOpts (self st) ++ genDrives (imageNames m 0 (length sizes)) m /\
      shCommands (events o) = imageCommands m 0 sizes).
Proof.
  intros m sizes o Hauto Hdrives. subst o.
  split; [apply driveSizes_length|].
  intros p err Hin.
  destruct (Create_launch _ _ _ _ _ Hin) as (ud & name & Hud & ->).
  rewrite launchHandle_args. fold m.
  rewrite <- shCommands_disk, Create_disk_events, shCommands_disk.
  rewrite provisionDrives_unfold in Hud |- *. cbv zeta in Hud |- *.
  fold m in Hud |- *. rewrite Hauto, Hdrives in Hud |- *.
  cbn [length Nat.eqb andb] in Hud |- *. fold sizes in Hud |- *.
  pose proof (provision_cases sizes 0 [] st) as Hp. cbv zeta in Hp.
  fold m in Hp. rewrite Hud in Hp. destruct Hp as [-> Hsh].
  split; [reflexivity | exact Hsh].
Qed.

(** A provisioning failure aborts [Create].  When an image cannot be
    made, [Create] returns the context it was given and the error
    [creating disk with size <size>: <cause>] for the size at the index
    [j] where it failed: the images before [j] were asked for, none after
    it; [Create] makes no other request (no search, no launch), and the
    receiver is as before. *)
Theorem provisioning_failure_aborts (st : Store H) (ctx : Ctx) (e : error) :
  let m := machineConfig (self st) in
  let sizes := driveSizes DefaultDriveSize m in
  let o := Create DefaultDriveSize ctx st in
  value (provisionDrives DefaultDriveSize st) = inr e ->
  value o = (ctx, Some e) /\
  forallb isDisk (events o) = true /\
  self (final o) = self st /\
  exists j s cause,
    nth_error sizes j = Some s /\
    e = Wrapf ("creating disk with size " +++ s +++ ": ") cause /\
    (shCommands (events o) = imageCommands m 0 (firstn j sizes) \/
     shCommands (events o) = imageCommands m 0 (firstn (S j) sizes)).
Proof.
  intros m sizes o Hfail. subst o.
  pose proof (Create_outcome DefaultDriveSize st ctx) as Ho. cbv zeta in Ho.
  rewrite Hfail in Ho. rewrite Ho. cbn [value events final].
  destruct (quiet_provisionDrives DefaultDriveSize st) as [Hs He].
  split; [reflexivity|]. split; [exact He|]. split; [exact Hs|].
  rewrite provisionDrives_unfold in Hfail |- *. cbv zeta in Hfail |- *.
  fold m in Hfail |- *.
  destruct (AutoDriveSetup m && Nat.eqb (length (Drives m)) 0) eqn:Ec;
    [|discriminate Hfail].
  apply andb_true_iff in Ec as [_ Ec]. apply Nat.eqb_eq in Ec.
  destruct (Drives m); [|discriminate Ec].
  fold sizes in Hfail |- *.
  pose proof (provision_cases sizes 0 [] st) as Hp. cbv zeta in Hp.
  fold m in Hp. rewrite Hfail in Hp. exact Hp.
Qed.

End ProvisionExtras.

(* ================================================================== *)
(** * More on the monitor commands *)

Section MonitorExtras.

Variable H : Host.

Lemma DetachCD_shape (st : Store H) (fuel : nat) :
  let sock := monitorSockFile (self st) in
  let d := net_Dial H "unix" sock (world st) in
  match fst d with
  | inr e =>
      DetachCD fuel st =
        mkOutcome (Some (Some e)) [EvDial "unix" sock (inr e)]
                  (mkStore H (self st) (snd d))
  | inl conn =>
      let sd := sendAndDrain fuel conn ejectLine (mkStore H (self st) (snd d)) in
      let cl := conn_Close H conn (world (final sd)) in
      DetachCD fuel st =
        mkOutcome (value sd)
          (EvDial "unix" sock (inl conn) :: events sd ++ [EvConnClose conn (fst cl)])
          (mkStore H (self (final sd)) (snd cl))
  end.
Proof.
  intros sock d. unfold DetachCD, dialMonitor, bind, getSelf, call.
  cbn [value final events app]. fold sock. fold d.
  destruct (fst d) as [conn | e]; cbn [value final events app ret];
    rewrite ?app_nil_r; reflexivity.
Qed.

Lemma Screenshot_shape (st : Store H) (fuel : nat) :
  let sock := monitorSockFile (self st) in
  let d := net_Dial H "unix" sock (world st) in
  match fst d with
  | inr e =>
      Screenshot fuel st =
        mkOutcome (Some ("", Some e)) [EvDial "unix" sock (inr e)]
                  (mkStore H (self st) (snd d))
  | inl conn =>
      let t := os_CreateTemp H "" "qemu-screenshot-*.png" (snd d) in
      match fst t with
      | inr e =>
          let cl := conn_Close H conn (snd t) in
          Screenshot fuel st =
            mkOutcome (Some ("", Some e))
              [EvDial "unix" sock (inl conn);
               EvCreateTemp "" "qemu-screenshot-*.png" (inr e);
               EvConnClose conn (fst cl)]
              (mkStore H (self st) (snd cl))
      | inl f =>
          let fc := file_Close H f (snd t) in
          let rm := os_Remove H (Name f) (snd fc) in
          let sd := sendAndDrain fuel conn (screendumpLine f)
                      (mkStore H (self st) (snd rm)) in
          let cl := conn_Close H conn (world (final sd)) in
          Screenshot fuel st =
            mkOutcome
              match value sd with
              | None => None
              | Some (Some err) => Some ("", Some err)
              | Some None => Some (Name f, None)
              end
              (EvDial "unix" sock (inl conn)
                 :: EvCreateTemp "" "qemu-screenshot-*.png" (inl f)
                 :: EvFileClose f (fst fc)
                 :: EvRemove (Name f) (fst rm)
                 :: events sd ++ [EvConnClose conn (fst cl)])
              (mkStore H (self (final sd)) (snd cl))
      end
  end.
Proof.
  intros sock d.
  unfold Screenshot, dialMonitor, screenshotFile, bind, getSelf, call.
  cbn [value final events app]. fold sock. fold d.
  destruct (fst d) as [conn | e]; cbn [value final events app ret self world];
    [|reflexivity].
  destruct (fst (os_CreateTemp H "" "qemu-screenshot-*.png" (snd d)))
    as [f | e]; cbn [value final events app ret self world]; [|reflexivity].
  match goal with
  | |- context [sendAndDrain fuel conn ?l ?s] =>
      set (sd := sendAndDrain fuel conn l s)
  end.
  destruct (value sd) as [[err|]|]; cbn [value final events app ret];
    rewrite ?app_nil_r, <- ?app_assoc; reflexivity.
Qed.

Lemma read_not_write (e : Event) : isRead e = true -> isWrite e = false.
Proof. now destruct e. Qed.

Lemma read_not_conn_end (e : Event) : isRead e = true -> isConnEnd e = false.
Proof. now destruct e. Qed.

(** The shared block starts with its one write and neither opens nor
    closes a connection. *)
Lemma sendAndDrain_view (fuel : nat) (conn : Conn) (cmd : string)
    (st : Store H) :
  exists w rest,
    events (sendAndDrain fuel conn cmd st) = EvWrite conn cmd w :: rest /\
    filter isWrite rest = [] /\
    filter isConnEnd rest = [].
Proof.
  pose proof (sendAndDrain_shape fuel conn cmd st) as Hs. cbv zeta in Hs.
  destruct (snd (fst (conn_Write H conn cmd (world st)))) as [e|].
  - destruct Hs as [He _]. rewrite He. eexists _, []. repeat split.
  - destruct (Z.eqb (fst (fst (conn_Write H conn cmd (world st))))
                    (Z.of_nat (String.length cmd))).
    + destruct Hs as (d & reads & He & Hr & _). rewrite He.
      eexists _, _. split; [reflexivity|]. cbn [filter isWrite isConnEnd].
      rewrite (filter_other_kind _ isWrite _ Hr read_not_write).
      rewrite (filter_other_kind _ isConnEnd _ Hr read_not_conn_end).
      split; reflexivity.
    + destruct Hs as [He _]. rewrite He. eexists _, []. repeat split.
Qed.

(** A connection that was opened is closed: when the socket cannot be
    dialled, a monitor command returns the error of the dial and asks
    nothing else; when it can, and the command returns, the command closes
    this connection as its last request, and opens or closes no other in
    between. *)
Theorem monitor_connection_closed (st : Store H) (fuel : nat) :
  let sock := monitorSockFile (self st) in
  let d := fst (net_Dial H "unix" sock (world st)) in
  match d with
  | inr e =>
      Screenshot fuel st =
        mkOutcome (Some ("", Some e)) [EvDial "unix" sock (inr e)]
                  (final (dialMonitor st)) /\
      DetachCD fuel st =
        mkOutcome (Some (Some e)) [EvDial "unix" sock (inr e)]
                  (final (dialMonitor st))
  | inl conn =>
      (value (Screenshot fuel st) <> None ->
       exists body cl,
         events (Screenshot fuel st) =
           EvDial "unix" sock (inl conn) :: body ++ [EvConnClose conn cl] /\
         filter isConnEnd body = []) /\
      (value (DetachCD fuel st) <> None ->
       exists body cl,
         events (DetachCD fuel st) =
           EvDial "unix" sock (inl conn) :: body ++ [EvConnClose conn cl] /\
         filter isConnEnd body = [])
  end.
Proof.
  intros sock d. subst d.
  pose proof (Screenshot_shape st fuel) as Hs.
  pose proof (DetachCD_shape st fuel) as Hd.
  cbv zeta in Hs, Hd. fold sock in Hs, Hd.
  destruct (fst (net_Dial H "unix" sock (world st))) as [conn | e].
  - split; intros _.
    + destruct (fst (os_CreateTemp H "" "qemu-screenshot-*.png"
                       (snd (net_Dial H "unix" sock (world st)))))
        as [f | e]; rewrite Hs; cbn [events].
      * match goal with
        | |- context [sendAndDrain fuel conn ?l ?s] =>
            destruct (sendAndDrain_view fuel conn l s)
              as (w & rest & He & _ & Hc); rewrite He
        end.
        eexists (_ :: _ :: _ :: _ :: _), _. split; [reflexivity|].
        cbn [filter isConnEnd]. exact Hc.
      * eexists [_], _. split; reflexivity.
    + rewrite Hd. cbn [events].
      match goal with
      | |- context [sendAndDrain fuel conn ?l ?s] =>
          destruct (sendAndDrain_view fuel conn l s)
            as (w & rest & He & _ & Hc); rewrite He
      end.
      eexists (_ :: _), _. split; [reflexivity|].
      cbn [filter isConnEnd]. exact Hc.
  - split; [exact Hs | exact Hd].
Qed.

(** One line per command.  After the dial, [DetachCD] writes
    [eject -f ide0-cd0] with carriage return and line feed, and writes
    nothing else.  [Screenshot] first asks for a temporary file: when that
    fails it returns the error and writes nothing; otherwise it closes and
    removes the file, then writes [screendump <name of the file>] with
    carriage return and line feed, and nothing else, and the name it
    returns on success is the name of that file. *)
Theorem one_line_per_command (st : Store H) (fuel : nat) (conn : Conn) :
  let sock := monitorSockFile (self st) in
  let d := net_Dial H "unix" sock (world st) in
  let t := os_CreateTemp H "" "qemu-screenshot-*.png" (snd d) in
  fst d = inl conn ->
  (exists w rest,
      events (DetachCD fuel st) =
        EvDial "unix" sock (inl conn)
          :: EvWrite conn ("eject -f ide0-cd0" +++ CRLF) w :: rest /\
      filter isWrite rest = []) /\
  match fst t with
  | inr e =>
      value (Screenshot fuel st) = Some ("", Some e) /\
      filter isWrite (events (Screenshot fuel st)) = []
  | inl f =>
      (exists fc rm w rest,
          events (Screenshot fuel st) =
            EvDial "unix" sock (inl conn)
              :: EvCreateTemp "" "qemu-screenshot-*.png" (inl f)
              :: EvFileClose f fc
              :: EvRemove (Name f) rm
              :: EvWrite conn ("screendump " +++ Name f +++ CRLF) w :: rest /\
          filter isWrite rest = []) /\
      (forall name, value (Screenshot fuel st) = Some (name, None) ->
                    name = Name f)
  end.
Proof.
  intros sock d t Hdial. subst t.
  pose proof (Screenshot_shape st fuel) as Hs.
  pose proof (DetachCD_shape st fuel) as Hd.
  cbv zeta in Hs, Hd. fold sock in Hs, Hd. fold d in Hs, Hd.
  rewrite Hdial in Hs, Hd. split.
  - rewrite Hd. cbn [events].
    match goal with
    | |- context [sendAndDrain fuel conn ?l ?s] =>
        destruct (sendAndDrain_view fuel conn l s)
          as (w & rest & He & Hw & _); rewrite He
    end.
    eexists _, _. split; [reflexivity|].
    rewrite filter_app, Hw. reflexivity.
  - destruct (fst (os_CreateTemp H "" "qemu-screenshot-*.png" (snd d)))
      as [f | e]; rewrite Hs; cbn [events value].
    + split.
      * match goal with
        | |- context [sendAndDrain fuel conn ?l ?s] =>
            destruct (sendAndDrain_view fuel conn l s)
              as (w & rest & He & Hw & _); rewrite He
        end.
        eexists _, _, _, _. split; [reflexivity|].
        rewrite filter_app, Hw. reflexivity.
      * intros name.
        match goal with
        | |- context [value ?sd] => destruct (value sd) as [[err|]|]
        end; intros [= E]; congruence.
    + split; reflexivity.
Qed.

Lemma sendAndDrain_deadline (fuel : nat) (conn c : Conn) (cmd : string)
    (d : Z) (e : error) (st : Store H) :
  In (EvSetReadDeadline c d (Some e)) (events (sendAndDrain fuel conn cmd st)) ->
  value (sendAndDrain fuel conn cmd st) = Some (Some e) /\
  filter isRead (events (sendAndDrain fuel conn cmd st)) = [].
Proof.
  intros Hin.
  pose proof (sendAndDrain_shape fuel conn cmd st) as Hs. cbv zeta in Hs.
  destruct (snd (fst (conn_Write H conn cmd (world st)))) as [e'|].
  - destruct Hs as [He _]. rewrite He in Hin.
    destruct Hin as [Hin | []]. discriminate Hin.
  - destruct (Z.eqb (fst (fst (conn_Write H conn cmd (world st))))
                    (Z.of_nat (String.length cmd))).
    + destruct Hs as (d' & reads & He & Hr & Hv). rewrite He in Hin |- *.
      destruct Hin as [Hin | [Hin | Hin]].
      * discriminate Hin.
      * injection Hin as _ _ ->. destruct Hv as [-> Hv].
        split; [exact Hv | reflexivity].
      * rewrite forallb_forall in Hr. specialize (Hr _ Hin). discriminate Hr.
    + destruct Hs as [He _]. rewrite He in Hin.
      destruct Hin as [Hin | []]. discriminate Hin.
Qed.

(** Unlike an error of a read, an error of setting the read deadline is
    returned: in both monitor commands, when [SetReadDeadline] fails the
    command returns that error and performs no read. *)
Theorem deadline_failure_is_returned (st : Store H) (fuel : nat) (c : Conn)
    (d : Z) (e : error) :
  (In (EvSetReadDeadline c d (Some e)) (events (Screenshot fuel st)) ->
   value (Screenshot fuel st) = Some ("", Some e) /\
   filter isRead (events (Screenshot fuel st)) = []) /\
  (In (EvSetReadDeadline c d (Some e)) (events (DetachCD fuel st)) ->
   value (DetachCD fuel st) = Some (Some e) /\
   filter isRead (events (DetachCD fuel st)) = []).
Proof.
  pose proof (Screenshot_shape st fuel) as Hs.
  pose proof (DetachCD_shape st fuel) as Hd.
  cbv zeta in Hs, Hd.
  destruct (fst (net_Dial H "unix" (monitorSockFile (self st)) (world st)))
    as [conn | e0].
  - split.
    + destruct (fst (os_CreateTemp H "" "qemu-screenshot-*.png"
                       (snd (net_Dial H "unix" (monitorSockFile (self st))
                               (world st))))) as [f | e0];
        rewrite Hs; cbn [events value].
      * intros [Hin | [Hin | [Hin | [Hin | Hin]]]]; try discriminate Hin.
        apply in_app_or in Hin as [Hin | [Hin | []]]; [|discriminate Hin].
        destruct (sendAndDrain_deadline Hin) as [Hv Hr].
        rewrite Hv. split; [reflexivity|].
        cbn [filter isRead]. rewrite filter_app, Hr. reflexivity.
      * intros [Hin | [Hin | [Hin | []]]]; discriminate Hin.
    + rewrite Hd. cbn [events value].
      intros [Hin | Hin]; [discriminate Hin|].
      apply in_app_or in Hin as [Hin | [Hin | []]]; [|discriminate Hin].
      destruct (sendAndDrain_deadline Hin) as [Hv Hr].
      rewrite Hv. split; [reflexivity|].
      cbn [filter isRead]. rewrite filter_app, Hr. reflexivity.
  - rewrite Hs, Hd. cbn [events].
    split; intros [Hin | []]; discriminate Hin.
Qed.

(** The drain loop reads 1024 bytes at a time from the connection it was
    given, and the first read that returns an error is its last: its
    requests are reads that returned no error, followed, when it ended,
    by one read that returned an error.  A bound on the reads is reached
    only when that many reads returned no error. *)
Theorem drain_reads_until_error (fuel : nat) (conn : Conn) (st : Store H) :
  let o := drain fuel conn st in
  self (final o) = self st /\
  exists good,
    Forall (goodRead conn) good /\
    ((value o = true /\ length good < fuel /\
      exists n e, events o = good ++ [EvRead conn 1024 (n, Some e)]) \/
     (value o = false /\ length good = fuel /\ events o = good)).
Proof.
  revert st. induction fuel as [|fuel IH]; intros st o; subst o.
  - split; [reflexivity|]. exists []. split; [constructor|]. right.
    repeat split.
  - cbn [drain]. unfold bind, call. cbn [value final events app].
    destruct (fst (conn_Read H conn 1024 (world st))) as [n [e|]] eqn:Er;
      cbn [snd].
    + split; [reflexivity|]. exists []. split; [constructor|]. left.
      cbn [value events ret app length]. split; [reflexivity|].
      split; [lia|]. now exists n, e.
    + destruct (IH (mkStore H (self st)
                      (snd (conn_Read H conn 1024 (world st)))))
        as (Hself & good & Hg & Hc).
      cbn [self] in Hself. split; [exact Hself|].
      exists (EvRead conn 1024 (n, None) :: good).
      split; [constructor; [now exists n | exact Hg]|].
      destruct Hc as [(Hv & Hl & n' & e' & He) | (Hv & Hl & He)].
      * left. rewrite Hv, He. split; [reflexivity|].
        split; [cbn [length]; lia|]. now exists n', e'.
      * right. rewrite Hv, He. cbn [length]. auto.
Qed.

End MonitorExtras.

(* ================================================================== *)
(** * Teardown, composed *)

Section TeardownExtras.

Variable H : Host.
Variable DefaultDriveSize : string.

(** [Destroy] on a QEMU machine.  The additional cleanup runs first.  Then
    the machine is stopped; when that fails, the error is returned and
    nothing else is asked: the state directory stays.  Only after a stop
    without error the state directory is removed (when it is set), and the
    error of the removal, if any, is the result. *)
Theorem Destroy_stops_before_cleaning (vm : VM H)
    (additionalCleanup : VM H -> M H unit) (st : Store H) :
  let c := additionalCleanup vm st in
  let sd := StateDir (machineConfig (self (final c))) in
  let p := process_New [WithStateDir sd] in
  let s := process_Stop H p (world (final c)) in
  let r := os_RemoveAll H sd (snd s) in
  let o := Destroy vm additionalCleanup st in
  machine vm = Some (qemuMachine H) ->
  match fst s with
  | Some e =>
      value o = Some e /\ events o = events c ++ [EvStop p (Some e)]
  | None =>
      if String.eqb sd ""
      then value o = None /\ events o = events c ++ [EvStop p None]
      else value o = fst r /\
           events o = events c ++ [EvStop p None; EvRemoveAll sd (fst r)]
  end.
Proof.
  intros c sd p s r o Hm. subst o.
  assert (Hstop : Stop (final c) =
                  mkOutcome (fst s) [EvStop p (fst s)]
                            (mkStore H (self (final c)) (snd s)))
    by reflexivity.
  assert (Hclean : Clean (mkStore H (self (final c)) (snd s)) =
                   if String.eqb sd ""
                   then mkOutcome None [] (mkStore H (self (final c)) (snd s))
                   else mkOutcome (fst r) [EvRemoveAll sd (fst r)]
                          (mkStore H (self (final c)) (snd r))).
  { unfold Clean, bind, getSelf, call. cbn [value final events app self world].
    fold sd. destruct (String.eqb sd ""); reflexivity. }
  unfold Destroy, bind. rewrite Hm. fold c.
  cbn [value final events machine_Stop machine_Clean qemuMachine].
  rewrite Hstop. cbn [value final events].
  destruct (fst s) as [e|]; cbn [value final events ret app].
  - split; reflexivity.
  - rewrite Hclean.
    destruct (String.eqb sd ""); cbn [value final events app].
    + split; reflexivity.
    + destruct (fst r); cbn [value events ret app]; split; reflexivity.
Qed.

(** Without a machine, [Destroy] runs the additional cleanup and nothing
    else, and returns no error. *)
Theorem Destroy_without_machine (vm : VM H)
    (additionalCleanup : VM H -> M H unit) (st : Store H) :
  machine vm = None ->
  Destroy vm additionalCleanup st =
    mkOutcome None (events (additionalCleanup vm st))
              (final (additionalCleanup vm st)).
Proof.
  intros Hm. unfold Destroy, bind. rewrite Hm.
  cbn [value final events ret]. now rewrite app_nil_r.
Qed.

(** [Stop] and [Alive] find the process of [Create] by the state
    directory alone: after a [Create] that launched a process, each asks
    the process manager once, with a handle that has the state directory
    of the launched process and neither name nor arguments, and leaves the
    receiver as it is. *)
Theorem Stop_addresses_launched_state_dir (st : Store H) (ctx : Ctx)
    (p : ProcessHandle) (err : option error) :
  let st' := final (Create DefaultDriveSize ctx st) in
  let h := mkProcess "" [] (procStateDir p) in
  In (EvRun p err) (events (Create DefaultDriveSize ctx st)) ->
  events (Stop st') = [EvStop h (value (Stop st'))] /\
  events (Alive st') = [EvIsAlive h (value (Alive st'))] /\
  self (final (Stop st')) = self st' /\
  self (final (Alive st')) = self st'.
Proof.
  intros st' h Hin. subst st' h.
  destruct (Create_launches_once_or_nothing DefaultDriveSize st ctx)
    as [Hcfg Hcase].
  destruct (Create_launch _ _ _ _ _ Hin) as (ud & name & _ & ->).
  unfold Stop, Alive, bind, getSelf, call.
  cbn [value final events app self world]. rewrite Hcfg.
  repeat split.
Qed.

End TeardownExtras.

(* ================================================================== *)
(** * More on the option block *)

Section OptionBlock.

(** The networking switch decides on two tokens and nothing else.  With
    default networking disabled the option block does not depend on the
    SSH port; with it enabled the block is the same with [-nic] and
    [user,hostfwd=tcp::<port>-:22] inserted after its first ten tokens. *)
Theorem networking_tokens (q : QEMU) :
  let m := machineConfig q in
  let off := createOpts (mkQEMU (withNetworking true "" m) (process q)) in
  (forall port,
      createOpts (mkQEMU (withNetworking true port m) (process q)) = off) /\
  (forall port,
      createOpts (mkQEMU (withNetworking false port m) (process q)) =
        firstn 10 off
          ++ ["-nic"; "user,hostfwd=tcp::" +++ port +++ "-:22"]
          ++ skipn 10 off).
Proof.
  intros m off. subst off. split; intros port.
  - reflexivity.
  - unfold createOpts, monitorSockFile, withNetworking.
    cbn [machineConfig DisableDefaultNetworking SSHConfig Port Display Memory
         CPU CPUType Arch Args StateDir negb app firstn skipn].
    destruct (negb (String.eqb (Display m) ""));
      destruct (negb (String.eqb (CPUType m) ""));
      destruct (String.eqb (Arch m) "aarch64");
      cbn [app firstn skipn]; rewrite <- ?app_assoc; reflexivity.
Qed.

Lemma split_nonempty (c : ascii) (s : string) : Fmt.split c s <> [].
Proof.
  destruct s as [|a s]; cbn [Fmt.split]; [discriminate|].
  destruct (Ascii.eqb a c); [discriminate|].
  destruct (Fmt.split c s); discriminate.
Qed.

(** Splitting at a byte and joining with it gives the string back. *)
Lemma join_split (c : ascii) (s : string) :
  Fmt.join (String c "") (Fmt.split c s) = s.
Proof.
  induction s as [|a s IH]; [reflexivity|]. cbn [Fmt.split].
  pose proof (split_nonempty c s) as Hne.
  destruct (Ascii.eqb_spec a c) as [-> | Hac].
  - destruct (Fmt.split c s) as [|h t]; [congruence|].
    rewrite join_cons, IH. reflexivity.
  - destruct (Fmt.split c s) as [|h t]; [congruence|].
    rewrite <- IH. destruct t; reflexivity.
Qed.

Lemma split_fields_lack (c : ascii) (s : string) :
  Forall (fun t => Fmt.lacks c t = true) (Fmt.split c s).
Proof.
  induction s as [|a s IH]; cbn [Fmt.split].
  - repeat constructor.
  - destruct (Ascii.eqb a c) eqn:E.
    + constructor; [reflexivity | exact IH].
    + destruct (Fmt.split c s) as [|h t]; [repeat constructor; cbn; now rewrite E|].
      inversion IH as [|? ? Hh Ht]; subst.
      constructor; [cbn; now rewrite E, Hh | exact Ht].
Qed.

Lemma split_length (c : ascii) (s : string) :
  length (Fmt.split c s) = S (countByte c s).
Proof.
  induction s as [|a s IH]; [reflexivity|]. cbn [Fmt.split countByte].
  destruct (Ascii.eqb a c).
  - cbn [length]. now rewrite IH.
  - destruct (Fmt.split c s) as [|h t]; cbn [length] in *; lia.
Qed.

(** The display tokens.  The option block carries, after its first ten
    tokens and the two networking tokens if any, the display string cut at
    every single space: [-nographic] when no display is configured.  The
    tokens hold no space, there is one more of them than there are spaces
    (two spaces in a row give an empty token), and joined by spaces they
    are the display string again. *)
Theorem display_tokens (q : QEMU) :
  let m := machineConfig q in
  let toks := Fmt.split " " (displayOf m) in
  (exists pre post,
      createOpts q = pre ++ toks ++ post /\
      length pre = if DisableDefaultNetworking m then 10 else 12) /\
  Fmt.join " " toks = displayOf m /\
  Forall (fun t => Fmt.lacks " " t = true) toks /\
  length toks = S (countByte " " (displayOf m)).
Proof.
  intros m toks. subst toks. split; [|split; [|split]].
  - exists (firstn (if DisableDefaultNetworking m then 10 else 12)
                   (createOpts q)),
           ((if negb (String.eqb (CPUType m) "") then ["-cpu"; CPUType m]
             else if String.eqb (Arch m) "aarch64" then ["-cpu"; "max"]
             else [])
              ++ Args m
              ++ (if String.eqb (Arch m) "aarch64"
                  then ["-machine"; "virt,accel=tcg,acpi=on,gic-version=2"]
                  else [])
              ++ ["-boot"; "order=dc,menu=on"]).
    unfold createOpts, displayOf, isSet. fold m. cbv zeta.
    destruct (DisableDefaultNetworking m);
      destruct (negb (String.eqb (CPUType m) ""));
      destruct (String.eqb (Arch m) "aarch64");
      cbn [negb app firstn length]; rewrite <- ?app_assoc;
      cbn [app]; rewrite ?app_nil_r; split; reflexivity.
  - apply join_split.
  - apply split_fields_lack.
  - apply split_length.
Qed.

End OptionBlock.

(* ================================================================== *)
(** * The candidates of the search *)

Section Candidates.

Import GoPath.

Lemma cleanElems_sparse (rooted : bool) (elems out : list string) :
  forallb (fun e => isEmpty e || plainElem e) elems = true ->
  cleanElems rooted out elems =
    List.rev out ++ filter (fun e => negb (isEmpty e)) elems.
Proof.
  revert out. induction elems as [|e rest IH]; intros out Hall.
  - cbn. now rewrite app_nil_r.
  - cbn [forallb] in Hall. apply andb_true_iff in Hall as [He Hrest].
    cbn [cleanElems filter].
    destruct (isEmpty e) eqn:Hem; cbn [orb negb].
    + now apply IH.
    + cbn [orb] in He. unfold plainElem in He.
      apply andb_true_iff in He as [He _].
      apply andb_true_iff in He as [He Hdd].
      apply andb_true_iff in He as [_ Hd].
      apply negb_true_iff in Hd, Hdd. rewrite Hd, Hdd.
      rewrite IH by exact Hrest. cbn [List.rev].
      now rewrite <- app_assoc.
Qed.

(** A rooted path with empty elements among plain ones is cleaned by
    dropping the empty ones. *)
Lemma Clean_rooted_sparse (elems : list string) :
  elems <> [] ->
  forallb (fun e => isEmpty e || plainElem e) elems = true ->
  Clean (plainPath true elems) =
    plainPath true (filter (fun e => negb (isEmpty e)) elems).
Proof.
  intros Hne Hall.
  assert (Hl : forallb (Fmt.lacks "/") elems = true).
  { rewrite forallb_forall in Hall |- *. intros x Hx.
    specialize (Hall x Hx). apply orb_true_iff in Hall as [Hx0 | Hp].
    - unfold isEmpty in Hx0. apply String.eqb_eq in Hx0. now subst x.
    - now apply plainElem_lacks. }
  unfold plainPath, Clean. cbn [String.append isRooted].
  rewrite Ascii.eqb_refl. cbn [Fmt.split]. rewrite Ascii.eqb_refl.
  rewrite (split_join "/" Hne Hl).
  cbn [cleanElems isEmpty String.eqb orb].
  now rewrite cleanElems_sparse.
Qed.

(** For an architecture name without slash, the files [findQEMUBinary]
    asks for are the five common directories, each followed at once by
    [qemu-system-<arch>]. *)
Theorem candidates_in_common_paths (arch : string) :
  Fmt.lacks "/" arch = true ->
  candidates ("qemu-system-" +++ arch) =
    map (fun p => p +++ "qemu-system-" +++ arch) commonPaths.
Proof.
  intros Harch.
  set (bin := "qemu-system-" +++ arch).
  assert (Hbin : plainElem bin = true).
  { unfold plainElem, bin. cbn. exact Harch. }
  assert (Hn : isEmpty bin = false) by reflexivity.
  assert (Hj : forall elems : list string,
             elems <> [] ->
             forallb plainElem elems = true ->
             Join [plainPath true elems +++ "/"; bin] =
               plainPath true elems +++ "/" +++ bin).
  { intros elems Hne Hall. unfold Join. cbn [filter].
    assert (Hp : isEmpty (plainPath true elems +++ "/") = false) by reflexivity.
    rewrite Hp, Hn. cbn [negb Fmt.join].
    assert (E : (plainPath true elems +++ "/") +++ "/" +++ bin
                = plainPath true (elems ++ [""; bin])).
    { unfold plainPath.
      change (elems ++ [""; bin]) with (elems ++ [""] ++ [bin]).
      rewrite app_assoc, !join_snoc; try exact Hne.
      - now rewrite !append_assoc.
      - destruct elems; discriminate. }
    rewrite E, Clean_rooted_sparse.
    - rewrite filter_app. cbn [filter isEmpty String.eqb negb]. rewrite Hn.
      assert (Hf : filter (fun e => negb (isEmpty e)) elems = elems).
      { clear -Hall. induction elems as [|x l IH]; [reflexivity|].
        cbn [forallb filter] in *. apply andb_true_iff in Hall as [Hx Hl].
        unfold plainElem in Hx.
        apply andb_true_iff in Hx as [Hx _].
        apply andb_true_iff in Hx as [Hx _].
        apply andb_true_iff in Hx as [Hx _].
        rewrite Hx. now rewrite IH. }
      rewrite Hf. unfold plainPath. cbn [negb].
      rewrite join_snoc by exact Hne. now rewrite append_assoc.
    - destruct elems; discriminate.
    - rewrite forallb_app. cbn [forallb isEmpty String.eqb orb].
      rewrite Hbin, orb_true_r, andb_true_r.
      rewrite forallb_forall in Hall |- *. intros x Hx.
      rewrite (Hall x Hx). apply orb_true_r. }
  unfold candidates, commonPaths, filepath_Join. cbn [map]. fold bin.
  change "/home/linuxbrew/.linuxbrew/bin/"
    with (plainPath true ["home"; "linuxbrew"; ".linuxbrew"; "bin"] +++ "/").
  change "/usr/local/bin/" with (plainPath true ["usr"; "local"; "bin"] +++ "/").
  change "/usr/bin/" with (plainPath true ["usr"; "bin"] +++ "/").
  change "/opt/homebrew/bin/"
    with (plainPath true ["opt"; "homebrew"; "bin"] +++ "/").
  change "/usr/local/homebrew/bin/"
    with (plainPath true ["usr"; "local"; "homebrew"; "bin"] +++ "/").
  rewrite !Hj by (reflexivity || discriminate).
  rewrite !append_assoc. reflexivity.
Qed.

End Candidates.

(* ================================================================== *)
(** * The earlier revision *)

Section LegacyFacts.

Variable H : Host.
Variable DefaultDriveSize : string.

Lemma legacy_provisionDrive_cases (q : Legacy.QEMU) (st : Store H) :
  let m := Legacy.machineConfig q in
  let command := "qemu-img create -f qcow2 "
                   +++ filepath_Join [Legacy.StateDir m; Legacy.imageFile m]
                   +++ " " +++ DefaultDriveSize +++ "M" in
  let o := Legacy.provisionDrive (H:=H) DefaultDriveSize q st in
  self (final o) = self st /\
  forallb isDisk (events o) = true /\
  (forall c, In c (shCommands (events o)) ->
             c = command /\ Legacy.AutoDriveSetup m = true /\
             Legacy.Drive m = "").
Proof.
  intros m command o. subst o. unfold Legacy.provisionDrive. fold m.
  assert (Hnone : forall (A : Type) (a : A),
             self (final (ret (H:=H) a st)) = self st /\
             forallb isDisk (events (ret (H:=H) a st)) = true /\
             (forall c, In c (shCommands (events (ret (H:=H) a st))) ->
                        c = command /\ Legacy.AutoDriveSetup m = true /\
                        Legacy.Drive m = "")).
  { intros A a. split; [reflexivity|]. split; [reflexivity|]. intros c []. }
  destruct (Legacy.AutoDriveSetup m) eqn:Ea;
    destruct (String.eqb_spec (Legacy.Drive m) "") as [Ed | Ed];
    cbn [andb]; try apply Hnone.
  unfold Legacy.CreateDisk, Legacy.driveSize, isSet, bind, call. fold m.
  rewrite Ed. cbn [String.eqb negb value final events app self world].
  destruct (fst (os_MkdirAll H (Legacy.StateDir m) os_ModePerm (world st)));
    cbn [value final events app ret self world snd fst].
  - split; [reflexivity|]. split; [reflexivity|]. intros c [].
  - fold command.
    destruct (snd (fst (utils_SH H command
                          (snd (os_MkdirAll H (Legacy.StateDir m) os_ModePerm
                                  (world st))))));
      cbn [value final events app ret self];
      (split; [reflexivity|]); (split; [reflexivity|]);
      intros c [<- | []]; auto.
Qed.

(** In the earlier revision the size of a provisioned image is always the
    default: [driveSize] takes the size from [Drive], but an image is made
    only when [Drive] is empty.  Every image command of [Create] makes
    [<id>.img] under the state directory with the default size, and it
    runs only with automatic drive setup and no drive. *)
Theorem legacy_image_has_default_size (q : Legacy.QEMU) (ctx : Ctx)
    (st : Store H) :
  let m := Legacy.machineConfig q in
  let command := "qemu-img create -f qcow2 "
                   +++ filepath_Join [Legacy.StateDir m;
                                      Legacy.ID m +++ ".img"]
                   +++ " " +++ DefaultDriveSize +++ "M" in
  forall c,
    In c (shCommands (events (Legacy.Create (H:=H) DefaultDriveSize q ctx st))) ->
    c = command /\ Legacy.AutoDriveSetup m = true /\ Legacy.Drive m = "".
Proof.
  intros m command c Hin.
  destruct (legacy_provisionDrive_cases q st) as (_ & _ & Hsh).
  apply Hsh. revert Hin.
  unfold Legacy.Create, bind. cbn [value final events]. fold m.
  destruct (value (Legacy.provisionDrive (H:=H) DefaultDriveSize q st));
    unfold call, ret; cbn [value final events app];
    rewrite shCommands_app; cbn; now rewrite app_nil_r.
Qed.

(** The earlier revision never looks for the hypervisor: [Create] asks
    for no file and nothing of [PATH]; a process it launches is named by
    the override or else [/usr/bin/qemu-system-x86_64], is bound to the
    state directory and is recorded in the receiver; and when nothing is
    launched, [Create] returns the receiver and the context it was given
    with the provisioning error. *)
Theorem legacy_create_uses_fixed_binary (q : Legacy.QEMU) (ctx : Ctx)
    (st : Store H) :
  let m := Legacy.machineConfig q in
  let o := Legacy.Create (H:=H) DefaultDriveSize q ctx st in
  filter isSearch (events o) = [] /\
  (forall p err,
      In (EvRun p err) (events o) ->
      procName p = (if isSet (Legacy.Process m) then Legacy.Process m
                    else "/usr/bin/qemu-system-x86_64") /\
      procStateDir p = Legacy.StateDir m /\
      value o = (Legacy.mkQEMU m (Some p), (fst (snd (value o)), err))) /\
  (filter isLaunch (events o) = [] ->
   exists e, value o = (q, (ctx, Some e))).
Proof.
  intros m o. subst o.
  destruct (legacy_provisionDrive_cases q st) as (_ & Hd & _).
  unfold Legacy.Create, bind. cbn [value final events]. fold m.
  destruct (value (Legacy.provisionDrive (H:=H) DefaultDriveSize q st))
    as [drive | e]; unfold call, ret; cbn [value final events app fst snd].
  - split; [|split].
    + rewrite filter_app.
      rewrite (filter_other_kind _ isSearch _ Hd) by (now intros []).
      reflexivity.
    + intros p err Hin. apply in_app_or in Hin as [Hin | Hin].
      * apply (forallb_In_false _ isLaunch _ _ Hd) in Hin; [discriminate|].
        now destruct (EvRun p err).
      * destruct Hin as [Hin | [Hin | []]]; [discriminate|].
        injection Hin as <- <-. repeat split.
    + rewrite filter_app. cbn [filter isLaunch].
      intros Hnil. apply app_eq_nil in Hnil as [_ Hnil]. discriminate Hnil.
  - rewrite app_nil_r. split; [|split].
    + now rewrite (filter_other_kind _ isSearch _ Hd) by (now intros []).
    + intros p err Hin.
      apply (forallb_In_false _ isLaunch _ _ Hd) in Hin; [discriminate|].
      now destruct (EvRun p err).
    + intros _. now exists e.
Qed.

End LegacyFacts.

(* ================================================================== *)
(** * More properties at concrete configurations *)

Lemma configured_drives_witness :
  let m := Sim.withDrives ["a.img"] (Sim.withAuto ["10240"] Sim.bare) in
  filter isDisk
    (events (Create Sim.defaultSize (mkCtx 0) (Sim.start m Sim.calm))) = [].
Proof.
  intros m.
  refine (@configured_drives_not_provisioned Sim.host Sim.defaultSize
            (Sim.start m Sim.calm) (mkCtx 0) (or_intror _)).
  discriminate.
Defined.

Lemma process_override_witness :
  let m := Cases.withProcess "/opt/qemu/bin/qemu" Sim.bare in
  filter isSearch
    (events (Create Sim.defaultSize (mkCtx 0) (Sim.start m Sim.calm))) = [].
Proof.
  intros m.
  refine (proj1 (@process_override_skips_search Sim.host Sim.defaultSize
                   (Sim.start m Sim.calm) (mkCtx 0) _)).
  discriminate.
Defined.

Lemma auto_provisioning_every_size_witness :
  let m := Sim.withAuto ["100"; "200"] Sim.bare in
  shCommands
    (events (Create Sim.defaultSize (mkCtx 0) (Sim.start m Sim.calm))) =
    ["qemu-img create -f qcow2 /tmp/vm/vm-0.img 100M";
     "qemu-img create -f qcow2 /tmp/vm/vm-1.img 200M"].
Proof.
  intros m.
  destruct (@auto_provisioning_every_size Sim.host Sim.defaultSize
              (Sim.start m Sim.calm) (mkCtx 0) eq_refl eq_refl) as [_ Hrun].
  refine (proj2 (Hrun (launchHandle (mkQEMU m None)
                         "/usr/bin/qemu-system-x86_64"
                         ["/tmp/vm/vm-0.img"; "/tmp/vm/vm-1.img"])
                      None _)).
  do 8 right. left. reflexivity.
Defined.

Lemma provisioning_failure_witness :
  let m := Sim.withAuto [] Sim.bare in
  let o := Create Sim.defaultSize (mkCtx 0) (Sim.start m Cases.diskFull) in
  value o =
    (mkCtx 0,
     Some (Wrapf "creating disk with size 30000M: "
             (Wrapf " : " (HostError "exit status 1")))) /\
  forallb isDisk (events o) = true.
Proof.
  intros m o.
  destruct (@provisioning_failure_aborts Sim.host Sim.defaultSize
              (Sim.start m Cases.diskFull) (mkCtx 0)
              (Wrapf "creating disk with size 30000M: "
                 (Wrapf " : " (HostError "exit status 1")))
              eq_refl) as (Hv & Hd & _).
  split; [exact Hv | exact Hd].
Defined.

Lemma monitor_connection_witness :
  exists body cl,
    events (Screenshot 5 (Sim.start Sim.bare Cases.chatty)) =
      EvDial "unix" "/tmp/vm/qemu-monitor.sock" (inl (mkConn 3))
        :: body ++ [EvConnClose (mkConn 3) cl] /\
    filter isConnEnd body = [].
Proof.
  refine (proj1 (@monitor_connection_closed Sim.host
                   (Sim.start Sim.bare Cases.chatty) 5) _).
  discriminate.
Defined.

Lemma one_line_witness :
  exists w rest,
    events (DetachCD 5 (Sim.start Sim.bare Cases.chatty)) =
      EvDial "unix" "/tmp/vm/qemu-monitor.sock" (inl (mkConn 3))
        :: EvWrite (mkConn 3) ("eject -f ide0-cd0" +++ CRLF) w :: rest /\
    filter isWrite rest = [].
Proof.
  exact (proj1 (@one_line_per_command Sim.host
                  (Sim.start Sim.bare Cases.chatty) 5 (mkConn 3) eq_refl)).
Defined.

Lemma deadline_failure_witness :
  let st := mkStore Cases.noDeadline (mkQEMU Sim.bare None) Cases.chatty in
  value (DetachCD 5 st) =
    Some (Some (HostError "set deadline: use of closed connection")) /\
  filter isRead (events (DetachCD 5 st)) = [].
Proof.
  intros st.
  refine (proj2 (@deadline_failure_is_returned Cases.noDeadline st 5
                   (mkConn 3) time_Second
                   (HostError "set deadline: use of closed connection")) _).
  do 2 right. left. reflexivity.
Defined.

Lemma Destroy_witness :
  let vm := NewVM (Some (qemuMachine Sim.host)) "/tmp/vm" in
  let w := Sim.mkW ["/tmp/vm"; "/tmp/vm/vm-0.img"] None None None None [] [] in
  let o := Destroy vm (fun _ => ret tt) (Sim.start Sim.bare w) in
  value o = Some (HostError "no such process") /\
  events o = [EvStop (mkProcess "" [] "/tmp/vm")
                (Some (HostError "no such process"))].
Proof.
  intros vm w o.
  exact (@Destroy_stops_before_cleaning Sim.host vm (fun _ => ret tt)
           (Sim.start Sim.bare w) eq_refl).
Defined.

Lemma Destroy_without_machine_witness :
  Destroy (NewVM None "/tmp/vm") (fun _ => ret tt)
          (Sim.start Sim.bare Sim.calm) =
    mkOutcome None [] (Sim.start Sim.bare Sim.calm).
Proof.
  exact (@Destroy_without_machine Sim.host (NewVM None "/tmp/vm")
           (fun _ => ret tt) (Sim.start Sim.bare Sim.calm) eq_refl).
Defined.

Lemma Stop_addresses_witness :
  let st := Sim.start (Sim.withDrives ["a.img"] Sim.bare) Sim.calm in
  let st' := final (Create Sim.defaultSize (mkCtx 0) st) in
  events (Stop st') = [EvStop (mkProcess "" [] "/tmp/vm") None].
Proof.
  intros st st'.
  refine (proj1 (@Stop_addresses_launched_state_dir Sim.host Sim.defaultSize
                   st (mkCtx 0)
                   (launchHandle (self st) "/usr/bin/qemu-system-x86_64"
                      ["a.img"])
                   None _)).
  do 4 right. left. reflexivity.
Defined.

Lemma candidates_witness :
  candidates "qemu-system-x86_64" =
    ["/home/linuxbrew/.linuxbrew/bin/qemu-system-x86_64";
     "/usr/local/bin/qemu-system-x86_64";
     "/usr/bin/qemu-system-x86_64";
     "/opt/homebrew/bin/qemu-system-x86_64";
     "/usr/local/homebrew/bin/qemu-system-x86_64"].
Proof. exact (candidates_in_common_paths "x86_64" eq_refl). Defined.

Lemma legacy_image_witness :
  "qemu-img create -f qcow2 /tmp/vm/vm.img 30000M" =
    "qemu-img create -f qcow2 "
      +++ filepath_Join [Legacy.StateDir Legacy.sample;
                         Legacy.ID Legacy.sample +++ ".img"]
      +++ " " +++ Sim.defaultSize +++ "M".
Proof.
  refine (proj1 (@legacy_image_has_default_size Sim.host Sim.defaultSize
                   (Legacy.mkQEMU Legacy.sample None) (mkCtx 0)
                   (Sim.start Sim.bare Sim.calm)
                   "qemu-img create -f qcow2 /tmp/vm/vm.img 30000M" _)).
  left. reflexivity.
Defined.

Lemma legacy_create_witness :
  let q := Legacy.mkQEMU (Legacy.withDrive "disk.img" Legacy.sample) None in
  let o := Legacy.Create (H:=Sim.host) Sim.defaultSize q (mkCtx 0)
             (Sim.start Sim.bare Sim.calm) in
  map procName (Sim.launched o) = ["/usr/bin/qemu-system-x86_64"] /\
  filter isSearch (events o) = [].
Proof.
  intros q o.
  destruct (@legacy_create_uses_fixed_binary Sim.host Sim.defaultSize q
              (mkCtx 0) (Sim.start Sim.bare Sim.calm)) as (Hs & Hrun & _).
  split; [|exact Hs].
  refine (f_equal (fun n => [n])
            (proj1 (Hrun (process_New
                            [WithName "/usr/bin/qemu-system-x86_64";
                             WithArgs (Legacy.createOpts q);
                             WithArgs (Legacy.genDrives "disk.img"
                                         (Legacy.machineConfig q));
                             WithStateDir "/tmp/vm"])
                         None _))).
  right. left. reflexivity.
Defined.

(* ================================================================== *)
(** * Where the image is, and what the search decides *)

Section ImagePath.

Variable H : Host.
Variable DefaultDriveSize : string.

Lemma length_append (a b : string) :
  String.length (a +++ b) = String.length a + String.length b.
Proof. induction a as [|x a IH]; cbn; [reflexivity | now rewrite IH]. Qed.

(** A name without slash followed by a suffix of three bytes or more,
    without slash, is a plain element. *)
Lemma plainElem_suffixed (name suffix : string) :
  Fmt.lacks "/" name = true ->
  Fmt.lacks "/" suffix = true ->
  3 <= String.length suffix ->
  GoPath.plainElem (name +++ suffix) = true.
Proof.
  intros Hn Hs Hlen.
  assert (Hne : forall t : string, String.length t < 3 -> name +++ suffix <> t).
  { intros t Ht E. apply (f_equal String.length) in E.
    rewrite length_append in E. lia. }
  unfold GoPath.plainElem, GoPath.isEmpty, GoPath.isDot, GoPath.isDotDot.
  rewrite (proj2 (String.eqb_neq _ _) (Hne "" ltac:(cbn; lia))).
  rewrite (proj2 (String.eqb_neq _ _) (Hne "." ltac:(cbn; lia))).
  rewrite (proj2 (String.eqb_neq _ _) (Hne ".." ltac:(cbn; lia))).
  rewrite lacks_app, Hn, Hs. reflexivity.
Qed.

Lemma under_child (dir name : string) :
  GoPath.under dir (dir +++ "/" +++ name) = true.
Proof.
  unfold GoPath.under. rewrite <- append_assoc, stripPrefix_app.
  apply orb_true_r.
Qed.

(** C3, as amended.  With automatic drive setup, no drive configured, an
    identity without slash and a state directory made of plain elements:
    a size list [["10240"]] makes [Create] ask for one image,
    [<state-dir>/<id>-0.img], which lies under the state directory, with
    size [10240M]; an empty size list makes it ask for this one image with
    the default size and [M].  The disk requests of [Create] are: the
    state directory is made and, unless that fails, one [qemu-img create]
    command for this image and size; a process that is launched runs on
    this one image. *)
Theorem auto_provisioning_plain_image (st : Store H) (ctx : Ctx)
    (size : string) (rooted : bool) (elems : list string) :
  let m := machineConfig (self st) in
  let image := StateDir m +++ "/" +++ ID m +++ "-0.img" in
  let command := "qemu-img create -f qcow2 " +++ image +++ " " +++ size in
  let mk := os_MkdirAll H (StateDir m) os_ModePerm (world st) in
  let sh := utils_SH H command (snd mk) in
  AutoDriveSetup m = true ->
  Drives m = [] ->
  (DriveSizes m = ["10240"] /\ size = "10240M") \/
  (DriveSizes m = [] /\ size = DefaultDriveSize +++ "M") ->
  elems <> [] ->
  forallb GoPath.plainElem elems = true ->
  StateDir m = GoPath.plainPath rooted elems ->
  Fmt.lacks "/" (ID m) = true ->
  GoPath.under (StateDir m) image = true /\
  filter isDisk (events (Create DefaultDriveSize ctx st)) =
    EvMkdirAll (StateDir m) os_ModePerm (fst mk)
      :: match fst mk with
         | Some _ => []
         | None => [EvSH command (fst sh)]
         end /\
  (forall p err,
      In (EvRun p err) (events (Create DefaultDriveSize ctx st)) ->
      procArgs p = createOpts (self st) ++ genDrives [image] m).
Proof.
  intros m image command mk sh Hauto Hdrives Hsizes Hne Hall Hsd Hid.
  assert (Hfile : GoPath.plainElem (ID m +++ "-0.img") = true).
  { apply plainElem_suffixed; [exact Hid | reflexivity | cbn; lia]. }
  assert (Himage : filepath_Join [StateDir m; ID m +++ "-0.img"] = image).
  { subst image. unfold filepath_Join. rewrite Hsd.
    now apply Join_plain. }
  split; [apply under_child|].
  pose proof (@Create_one_image H DefaultDriveSize st ctx size
                Hauto Hdrives Hsizes) as Hone.
  cbv zeta in Hone. fold m in Hone. rewrite Himage in Hone.
  exact Hone.
Qed.

End ImagePath.

(** C3, as stated, fails for an identity with a [..] element: the image is
    made beside the state directory, not under it. *)
Lemma auto_provisioning_counterexample :
  let m := Cases.withID "../x" (Sim.withAuto ["10240"] Sim.bare) in
  let o := Create Sim.defaultSize (mkCtx 0) (Sim.start m Sim.calm) in
  StateDir m = "/tmp/vm" /\
  ID m = "../x" /\
  shCommands (events o) = ["qemu-img create -f qcow2 /tmp/x-0.img 10240M"] /\
  GoPath.under "/tmp/vm" "/tmp/x-0.img" = false.
Proof. vm_compute. repeat split. Qed.

Lemma auto_provisioning_plain_witness :
  let sized := Sim.start (Sim.withAuto ["10240"] Sim.bare) Sim.calm in
  let unsized := Sim.start (Sim.withAuto [] Sim.bare) Sim.calm in
  GoPath.under "/tmp/vm" "/tmp/vm/vm-0.img" = true /\
  filter isDisk (events (Create Sim.defaultSize (mkCtx 0) sized)) =
    [EvMkdirAll "/tmp/vm" os_ModePerm None;
     EvSH "qemu-img create -f qcow2 /tmp/vm/vm-0.img 10240M" ("", None)] /\
  filter isDisk (events (Create Sim.defaultSize (mkCtx 0) unsized)) =
    [EvMkdirAll "/tmp/vm" os_ModePerm None;
     EvSH "qemu-img create -f qcow2 /tmp/vm/vm-0.img 30000M" ("", None)].
Proof.
  intros sized unsized.
  assert (Hne : ["tmp"; "vm"] <> @nil string) by discriminate.
  refine (let W1 := @auto_provisioning_plain_image Sim.host Sim.defaultSize
                      sized (mkCtx 0) "10240M" true ["tmp"; "vm"]
                      eq_refl eq_refl (or_introl (conj eq_refl eq_refl))
                      Hne eq_refl eq_refl eq_refl in
          let W2 := @auto_provisioning_plain_image Sim.host Sim.defaultSize
                      unsized (mkCtx 0) "30000M" true ["tmp"; "vm"]
                      eq_refl eq_refl (or_intror (conj eq_refl eq_refl))
                      Hne eq_refl eq_refl eq_refl in
          conj (proj1 W1) (conj (proj1 (proj2 W1)) (proj1 (proj2 W2)))).
Defined.

(* ================================================================== *)
(** * The search decides what is launched *)

Section SearchDecides.

Variable H : Host.
Variable DefaultDriveSize : string.

(** Without an override, [resolveProcess] is [findQEMUBinary] with its
    error wrapped. *)
Lemma resolveProcess_search (st1 : Store H) :
  let o2 := findQEMUBinary (Arch (machineConfig (self st1))) st1 in
  Process (machineConfig (self st1)) = "" ->
  resolveProcess st1 =
    mkOutcome (match value o2 with
               | inl p => inl p
               | inr e => inr (Wrapf "failed to find QEMU binary: " e)
               end)
              (events o2) (final o2).
Proof.
  intros o2 Hproc. subst o2.
  unfold resolveProcess, bind, getSelf. cbn [value final events app].
  rewrite Hproc. cbn [String.eqb negb].
  destruct (value (findQEMUBinary (Arch (machineConfig (self st1))) st1));
    cbn [value final events ret]; now rewrite app_nil_r.
Qed.

(** C9, as amended.  Without a process override and once the drives are
    settled, the search requests of [Create] are those of
    [findQEMUBinary]: the binary [qemu-system-<arch>] is asked for in the
    common paths, in their order, up to the first that exists, and [PATH]
    is asked only after all of them failed.  The process that [Create]
    then launches is named by the path so found: its last two requests
    are the monitor and the run of that process.  When [PATH] fails too,
    [Create] makes no further request, launches nothing, leaves the
    receiver as it was and returns the error whose text is [failed to find
    QEMU binary: qemu-system-<arch> not found in common paths or PATH:]
    followed by the text of the lookup error: it names the binary, and the
    locations only as [common paths or PATH]. *)
Theorem binary_search_decides_launch (st : Store H) (ctx : Ctx)
    (ud : list string) :
  let m := machineConfig (self st) in
  let bin := "qemu-system-" +++ Arch m in
  let notFound := bin +++ " not found in common paths or PATH: " in
  let o1 := provisionDrives DefaultDriveSize st in
  let o2 := findQEMUBinary (Arch m) (final o1) in
  let o := Create DefaultDriveSize ctx st in
  Process m = "" ->
  value o1 = inl ud ->
  filter isSearch (events o) = events o2 /\
  ((exists k name evs,
       nth_error (candidates bin) k = Some name /\
       failedStats evs (firstn k (candidates bin)) /\
       events o2 = evs ++ [EvStat name None] /\
       value o2 = inl name) \/
   (exists evs r,
       failedStats evs (candidates bin) /\
       events o2 = evs ++ [EvLookPath bin r] /\
       value o2 = match r with
                  | inl name => inl name
                  | inr lookErr => inr (Wrapf notFound lookErr)
                  end)) /\
  match value o2 with
  | inl name =>
      let p := launchHandle (self st) name ud in
      procName p = name /\
      exists newCtx err,
        events o =
          events o1 ++ events o2
            ++ [EvMonitor ctx p (OnFailure m) newCtx; EvRun p err] /\
        value o = (newCtx, err)
  | inr cause =>
      value o = (ctx, Some (Wrapf "failed to find QEMU binary: " cause)) /\
      events o = events o1 ++ events o2 /\
      filter isLaunch (events o) = [] /\
      self (final o) = self st /\
      exists lookErr,
        cause = Wrapf notFound lookErr /\
        errorString (Wrapf "failed to find QEMU binary: " cause) =
          "failed to find QEMU binary: " +++ bin
            +++ " not found in common paths or PATH: "
            +++ errorString lookErr
  end.
Proof.
  intros m bin notFound o1 o2 o Hproc Hud.
  destruct (quiet_provisionDrives DefaultDriveSize st) as [Hs1 He1].
  fold o1 in Hs1, He1.
  assert (Hproc1 : Process (machineConfig (self (final o1))) = "")
    by (rewrite Hs1; exact Hproc).
  pose proof (resolveProcess_search (final o1) Hproc1) as Hres.
  cbv zeta in Hres. rewrite Hs1 in Hres. fold m in Hres. fold o2 in Hres.
  destruct (quiet_findQEMUBinary (Arch m) (final o1)) as [Hs2 He2].
  fold o2 in Hs2, He2.
  destruct (@search_order_and_failure H DefaultDriveSize st ctx Hproc)
    as [Hfind _].
  specialize (Hfind (final o1)). cbv zeta in Hfind.
  fold m bin notFound o2 in Hfind.
  pose proof (Create_outcome DefaultDriveSize st ctx) as Ho.
  cbv zeta in Ho. fold o1 m o in Ho. rewrite Hud, Hres in Ho.
  cbn [value final events] in Ho.
  assert (Hsearch1 : filter isSearch (events o1) = [])
    by (apply (filter_other_kind _ isSearch _ He1); now intros []).
  assert (Hsearch2 : filter isSearch (events o2) = events o2)
    by (apply (filter_same_kind _ isSearch _ He2); trivial).
  assert (Hlaunch1 : filter isLaunch (events o1) = [])
    by (apply (filter_other_kind _ isLaunch _ He1); now intros []).
  assert (Hlaunch2 : filter isLaunch (events o2) = [])
    by (apply (filter_other_kind _ isLaunch _ He2); now intros []).
  destruct (value o2) as [name | cause] eqn:Hv.
  - rewrite Ho. cbn [value final events].
    split; [|split; [exact Hfind|]].
    + rewrite !filter_app, Hsearch1, Hsearch2. cbn. now rewrite app_nil_r.
    + split; [reflexivity|]. eexists _, _. split; reflexivity.
  - rewrite Ho. cbn [value final events self].
    split; [|split; [exact Hfind|]].
    + now rewrite filter_app, Hsearch1, Hsearch2.
    + split; [reflexivity|]. split; [reflexivity|].
      split; [now rewrite filter_app, Hlaunch1, Hlaunch2|].
      split; [now rewrite Hs2|].
      destruct Hfind as [(k & p & evs & _ & _ & _ & Hp)
                        | (evs & r & _ & _ & Hr)]; [discriminate|].
      destruct r as [p | lookErr]; [discriminate|].
      injection Hr as ->. exists lookErr. split; [reflexivity|].
      cbn [errorString]. subst notFound. now rewrite append_assoc.
Qed.

End SearchDecides.

(** C9, as stated, fails: the error [Create] returns when the binary is
    nowhere holds none of the five directories that were searched. *)
Lemma binary_search_counterexample :
  let w := Sim.mkW [] None None None None [] [] in
  let o := Create Sim.defaultSize (mkCtx 0) (Sim.start Sim.bare w) in
  let message :=
    "failed to find QEMU binary: qemu-system-x86_64 not found in common paths or PATH: "
      +++ errorString (Sim.notFound "qemu-system-x86_64") in
  map (fun e => match e with EvStat name _ => name | _ => "" end)
      (filter isSearch (events o)) =
    candidates "qemu-system-x86_64" ++ [""] /\
  option_map errorString (snd (value o)) = Some message /\
  map (Fmt.contains message) commonPaths = [false; false; false; false; false].
Proof. vm_compute. repeat split. Qed.

Lemma binary_search_decides_witness :
  let o := Create Sim.defaultSize (mkCtx 0) (Sim.start Sim.bare Sim.calm) in
  let p := launchHandle (mkQEMU Sim.bare None) "/usr/bin/qemu-system-x86_64" [] in
  filter isSearch (events o) =
    [EvStat "/home/linuxbrew/.linuxbrew/bin/qemu-system-x86_64"
       (Some (HostError "stat /home/linuxbrew/.linuxbrew/bin/qemu-system-x86_64: no such file or directory"));
     EvStat "/usr/local/bin/qemu-system-x86_64"
       (Some (HostError "stat /usr/local/bin/qemu-system-x86_64: no such file or directory"));
     EvStat "/usr/bin/qemu-system-x86_64" None] /\
  procName p = "/usr/bin/qemu-system-x86_64" /\
  exists newCtx err,
    events o =
      filter isSearch (events o)
        ++ [EvMonitor (mkCtx 0) p None newCtx; EvRun p err] /\
    value o = (newCtx, err).
Proof.
  intros o p.
  pose proof (@binary_search_decides_launch Sim.host Sim.defaultSize
                (Sim.start Sim.bare Sim.calm) (mkCtx 0) []
                eq_refl eq_refl) as W.
  destruct W as (Hsearch & _ & Hname & newCtx & err & Hev & Hval).
  split; [exact Hsearch|]. split; [exact Hname|].
  exists newCtx, err. split; [exact Hev | exact Hval].
Defined.

(* ================================================================== *)
(** * What [Clean] asks for *)

Section CleanRequest.

Variable H : Host.

(** C10, as amended.  With an empty state directory [Clean] returns nil,
    makes no request and leaves the store as it is.  With a non-empty
    state directory [Clean] makes exactly one request, [os.RemoveAll] of
    that directory as it is configured, returns its answer as it is, and
    the world it leaves is the one [os.RemoveAll] leaves: what is removed
    is what this one call removes, and nothing else is asked for.  In both
    cases the receiver, and so the value of [Config], is unchanged. *)
Theorem clean_is_one_RemoveAll (st : Store H) :
  let m := machineConfig (self st) in
  let o := Clean st in
  let r := os_RemoveAll H (StateDir m) (world st) in
  (StateDir m = "" ->
   value o = None /\ events o = [] /\ final o = st) /\
  (StateDir m <> "" ->
   value o = fst r /\
   events o = [EvRemoveAll (StateDir m) (fst r)] /\
   world (final o) = snd r) /\
  self (final o) = self st /\
  value (Config (final o)) = value (Config st).
Proof.
  intros m o r. subst o r.
  unfold Clean, Config, bind, getSelf, call, ret.
  cbn [value final events app self world]. fold m.
  destruct (String.eqb_spec (StateDir m) "") as [E | E];
    cbn [negb value final events app self world].
  - split; [intros _|split; [intros N; now destruct N|split; reflexivity]].
    destruct st; repeat split.
  - split; [intros N; now destruct E|].
    split; [intros _; repeat split|split; reflexivity].
Qed.

End CleanRequest.

(** C10, as stated, fails for the state directory [.]: [os.RemoveAll]
    refuses a path that ends in [.] with [invalid argument], so [Clean]
    returns that error and everything that was there is still there. *)
Lemma clean_counterexample :
  let files := ["./vm-0.img"; "./qemu-monitor.sock"] in
  let w := Sim.mkW files None None None None [] [] in
  let m := Sim.withStateDir "." Sim.bare in
  let o := Clean (mkStore Cases.refusesDot (mkQEMU m None) w) in
  StateDir m <> "" /\
  events o =
    [EvRemoveAll "." (Some (HostError "RemoveAll .: invalid argument"))] /\
  value o = Some (HostError "RemoveAll .: invalid argument") /\
  Sim.present (world (final o)) = files.
Proof. vm_compute. repeat split. discriminate. Qed.

Lemma clean_is_one_RemoveAll_witness :
  let w := Sim.mkW ["/tmp/vm/vm-0.img"; "/etc/passwd"] None None None None [] [] in
  let unset := Sim.start (Sim.withStateDir "" Sim.bare) w in
  let o := Clean (Sim.start Sim.bare w) in
  (value (Clean unset) = None /\ events (Clean unset) = [] /\
   final (Clean unset) = unset) /\
  (value o = None /\
   events o = [EvRemoveAll "/tmp/vm" None] /\
   world (final o) = Sim.mkW ["/etc/passwd"] None None None None [] []) /\
  value (Config (final o)) = Sim.bare.
Proof.
  intros w unset o.
  assert (N : "/tmp/vm" <> EmptyString) by discriminate.
  exact (conj (proj1 (@clean_is_one_RemoveAll Sim.host unset) eq_refl)
          (conj (proj1 (proj2 (@clean_is_one_RemoveAll Sim.host
                                 (Sim.start Sim.bare w))) N)
                (proj2 (proj2 (proj2 (@clean_is_one_RemoveAll Sim.host
                                        (Sim.start Sim.bare w))))))).
Defined.
